(** * A fixed-capacity chained hash map (hashmap.c)

    Shallow embedding of [hashmap.c] and the properties of its
    operations.

    Conventions of the embedding:
    - machine integers are [Z]; [uint8] and [uint32] write out the
      wrap-around of conversions and unsigned arithmetic;
    - a pointer argument that may be [NULL] is an [option]; the map a
      [hashmap_t] points to is passed in and returned explicitly;
    - a [void*] value is its address, a [Z], and [NULL] is [0];
    - a chain of [struct _hashbucket_s] linked by [next] is a [list], the
      [buckets] array is a list of chains;
    - undefined behaviour of the C program (reading past the end of a
      buffer, an [int] shift that overflows) is the result [UB];
    - the outcome of [malloc]/[calloc] is taken from an oracle in the
      [world], next to the state [env] that the caller's callbacks
      (clone, free, apply) act on. *)

From Stdlib Require Import ZArith Lia.
From stdpp Require Import base option list.
From Stdlib Require Import Strings.Byte.

Local Open Scope Z_scope.

(** ** Results of C computations *)

Inductive result (A : Type) : Type :=
| Val (a : A)
| UB.
Arguments Val {A} a.
Arguments UB {A}.

#[global] Instance result_ret : MRet result := fun A a => Val a.
#[global] Instance result_bind : MBind result := fun A B f r =>
  match r with
  | Val a => f a
  | UB => UB
  end.

(** ** Machine integers *)

Definition uint8 (z : Z) : Z := z mod 2 ^ 8.
Definition uint32 (z : Z) : Z := z mod 2 ^ 32.

(** [1 << n] at type [int] (32 bits): defined when the result is
    representable, that is for [0 <= n <= 30]. *)
Definition shl_int (n : Z) : result Z :=
  if bool_decide (0 ≤ n ≤ 30) then Val (2 ^ n) else UB.

(** ** Memory primitives *)

(** The [n] bytes found at a pointer into a buffer holding [buf]; reading
    more bytes than the buffer holds is undefined. Models what [memcpy]
    copies and what the hash function is given. *)
Definition bytes_at (buf : list byte) (n : Z) : result (list byte) :=
  if bool_decide (n ≤ Z.of_nat (length buf))
  then Val (take (Z.to_nat n) buf)
  else UB.

(** [memcmp s1 s2 n = Val true] when [memcmp] returns [0]. Bytes are
    compared one by one, and a byte is read only when all bytes before
    it are equal; reading a byte past the end of either buffer is
    undefined. *)
Fixpoint memcmp (s1 s2 : list byte) (n : nat) {struct n} : result bool :=
  match n with
  | O => Val true
  | S n' =>
      match s1, s2 with
      | b1 :: t1, b2 :: t2 =>
          if Byte.eqb b1 b2 then memcmp t1 t2 n' else Val false
      | _, _ => UB
      end
  end.

(** ** Data *)

(** [struct _hashbucket_s]; [next] is the tail of the chain. The
    allocation behind [key] has exactly [length bkt_key] bytes. *)
Record _hashbucket_s : Type := Bucket {
  bkt_key : list byte;
  bkt_key_size : Z;  (* uint8_t *)
  bkt_value : Z
}.

Abbreviation chain := (list _hashbucket_s).

#[global] Instance byte_eq_decision : EqDecision byte := Byte.byte_eq_dec.

Definition hash_fn : Type := list byte → Z.

Section Hashmap.

(** State of the caller's side that the callbacks read and write. *)
Context {E : Type}.

Record world : Type := World {
  heap : list bool;  (* outcomes of the coming allocation requests *)
  env : E
}.

(** [malloc]/[calloc]: the next outcome of the oracle; an exhausted
    oracle means every further request succeeds. *)
Definition malloc (w : world) : bool * world :=
  match heap w with
  | [] => (true, w)
  | ok :: h => (ok, World h (env w))
  end.

Definition clone_fn : Type := Z → E → Z * E.
Definition free_fn : Type := Z → E → E.
Definition apply_fn : Type := Z → E → E.

(** [struct _hashmap_s] *)
Record _hashmap_s : Type := Hashmap {
  map_bucketcount : Z;  (* uint32_t *)
  map_buckets : list chain;
  map_hashmask : Z;  (* uint32_t *)
  map_hash_function : hash_fn;
  map_value_free_function : option free_fn;
  map_value_clone_function : option clone_fn
}.

Definition hashmap_t : Type := option _hashmap_s.

(** ** Construction *)

(** [for (shifts = 0; count > 1; count >>= 1) shifts++;] run for at most
    [fuel] iterations; [None] when the fuel does not suffice. *)
Fixpoint highest_bit (fuel : nat) (count shifts : Z) : option Z :=
  if bool_decide (1 < count) then
    match fuel with
    | O => None
    | S fuel' => highest_bit fuel' (Z.shiftr count 1) (uint8 (shifts + 1))
    end
  else Some shifts.

(** The sizing part of [hashmap_new]: the final value of [shifts]. The
    loop gets one iteration for each of the 32 bits of [count]. *)
Definition bucket_shifts (bucketcount : Z) : result Z :=
  match highest_bit 32 bucketcount 0 with
  | None => UB
  | Some shifts =>
      hi ← shl_int (shifts + 1);
      lo ← shl_int shifts;
      if bool_decide (uint32 (hi - bucketcount) < uint32 (bucketcount - lo))
      then Val (uint8 (shifts + 1))
      else Val shifts
  end.

Definition hashmap_new (bucketcount : Z)
    (hashmap_hash_function : option hash_fn)
    (value_clone_function : option clone_fn)
    (value_free_function : option free_fn)
    (w : world) : result (hashmap_t * world) :=
  if bool_decide (bucketcount < 1) then Val (None, w) else
  match hashmap_hash_function with
  | None => Val (None, w)
  | Some hash =>
      let '(ok, w) := malloc w in
      if negb ok then Val (None, w) else
      shifts ← bucket_shifts bucketcount;
      let count := uint32 (Z.shiftl 1 shifts) in
      let '(ok, w) := malloc w in
      if negb ok then Val (None, w) else
      Val (Some {| map_bucketcount := count;
                   map_buckets := replicate (Z.to_nat count) [];
                   map_hashmask := uint32 (count - 1);
                   map_hash_function := hash;
                   map_value_free_function := value_free_function;
                   map_value_clone_function := value_clone_function |}, w)
  end.

(** ** Entries *)

Definition _hashbucket_new (key : list byte) (key_size : Z) (value : Z)
    (value_clone_function : option clone_fn)
    (w : world) : result (option _hashbucket_s * world) :=
  let '(ok, w) := malloc w in
  if negb ok then Val (None, w) else
  let '(ok, w) := malloc w in
  if negb ok then Val (None, w) else
  copy ← bytes_at key key_size;
  match value_clone_function with
  | Some clone =>
      let '(v, e) := clone value (env w) in
      Val (Some (Bucket copy key_size v), World (heap w) e)
  | None => Val (Some (Bucket copy key_size value), w)
  end.

Definition _hashbucket_free (bucket : _hashbucket_s)
    (value_free_function : option free_fn) (e : E) : E :=
  match value_free_function with
  | Some free =>
      if bool_decide (bkt_value bucket ≠ 0) then free (bkt_value bucket) e
      else e
  | None => e
  end.

Fixpoint _hashbucket_apply (bucket : chain) (apply_function : apply_fn)
    (e : E) : E :=
  match bucket with
  | [] => e
  | current :: next =>
      _hashbucket_apply next apply_function
        (apply_function (bkt_value current) e)
  end.

Fixpoint _hashbucket_free_all (bucket : chain)
    (value_free_function : option free_fn) (e : E) : E :=
  match bucket with
  | [] => e
  | current :: next =>
      _hashbucket_free_all next value_free_function
        (_hashbucket_free current value_free_function e)
  end.

(** ** Traversal and destruction *)

(** [for (i = from; i < from + n; i++) body (buckets[i])]; an index past
    the end of the array is undefined. *)
Fixpoint for_buckets (n : nat) (i : Z) (buckets : list chain)
    (body : chain → E → E) (e : E) : result E :=
  match n with
  | O => Val e
  | S n' =>
      match buckets !! Z.to_nat i with
      | None => UB
      | Some bucket => for_buckets n' (i + 1) buckets body (body bucket e)
      end
  end.

Definition hashmap_apply (map : hashmap_t) (apply_function : option apply_fn)
    (w : world) : result world :=
  match map, apply_function with
  | Some m, Some f =>
      e ← for_buckets (Z.to_nat (map_bucketcount m)) 0 (map_buckets m)
             (λ bucket, _hashbucket_apply bucket f) (env w);
      Val (World (heap w) e)
  | _, _ => Val w
  end.

Definition hashmap_destroy (map : hashmap_t) (w : world) : result world :=
  match map with
  | Some m =>
      e ← for_buckets (Z.to_nat (map_bucketcount m)) 0 (map_buckets m)
             (λ bucket, _hashbucket_free_all bucket
                          (map_value_free_function m)) (env w);
      Val (World (heap w) e)
  | None => Val w
  end.

(** ** Insertion *)

Definition set_buckets (map : _hashmap_s) (buckets : list chain)
    : _hashmap_s :=
  {| map_bucketcount := map_bucketcount map;
     map_buckets := buckets;
     map_hashmask := map_hashmask map;
     map_hash_function := map_hash_function map;
     map_value_free_function := map_value_free_function map;
     map_value_clone_function := map_value_clone_function map |}.

(** The loop of [_hashmap_hashbucket_insert_at] from [iterator] on:
    [None] when an entry compares equal, otherwise the chain with
    [newbucket] linked behind its last entry. *)
Fixpoint chain_append (iterator : chain) (newbucket : _hashbucket_s)
    : result (option chain) :=
  match iterator with
  | [] => Val (Some [newbucket])
  | it :: next =>
      same ← memcmp (bkt_key it) (bkt_key newbucket)
                (Z.to_nat (bkt_key_size newbucket));
      if same : bool then Val None
      else
        r ← chain_append next newbucket;
        match r with
        | None => Val None
        | Some c => Val (Some (it :: c))
        end
  end.

Definition _hashmap_hashbucket_insert_at (map : _hashmap_s)
    (newbucket : _hashbucket_s) (index : Z) : result (bool * _hashmap_s) :=
  match map_buckets map !! Z.to_nat index with
  | None => UB
  | Some [] =>
      Val (true, set_buckets map
                   (<[Z.to_nat index := [newbucket]]> (map_buckets map)))
  | Some iterator =>
      r ← chain_append iterator newbucket;
      match r with
      | None => Val (false, map)
      | Some c =>
          Val (true, set_buckets map
                       (<[Z.to_nat index := c]> (map_buckets map)))
      end
  end.

(** The hash of the [key_size] bytes at [key], masked with [hashmask]. *)
Definition bucket_index (map : _hashmap_s) (key : list byte) (key_size : Z)
    : result Z :=
  bytes ← bytes_at key key_size;
  Val (Z.land (uint32 (map_hash_function map bytes)) (map_hashmask map)).

Definition hashmap_add (map : hashmap_t) (key : option (list byte))
    (key_size : Z) (value : Z) (w : world)
    : result (bool * hashmap_t * world) :=
  match map, key with
  | Some m, Some k =>
      if bool_decide (key_size = 0) then Val (false, map, w) else
      '(nb, w) ← _hashbucket_new k (uint8 key_size) value
                   (map_value_clone_function m) w;
      match nb with
      | None => Val (false, map, w)
      | Some newbucket =>
          index ← bucket_index m k key_size;
          '(ok, m') ← _hashmap_hashbucket_insert_at m newbucket index;
          if ok : bool then Val (true, Some m', w)
          else
            Val (false, Some m',
                 World (heap w)
                   (_hashbucket_free newbucket (map_value_free_function m)
                      (env w)))
      end
  | _, _ => Val (false, map, w)
  end.

(** ** Lookup *)

(** The loop of [hashmap_get]: the first entry that compares equal. *)
Fixpoint chain_find (iterator : chain) (key : list byte) (key_size : Z)
    : result (option _hashbucket_s) :=
  match iterator with
  | [] => Val None
  | it :: next =>
      same ← memcmp (bkt_key it) key (Z.to_nat key_size);
      if same : bool then Val (Some it) else chain_find next key key_size
  end.

Definition hashmap_get (map : hashmap_t) (key : option (list byte))
    (key_size : Z) : result Z :=
  match map, key with
  | Some m, Some k =>
      if bool_decide (key_size = 0) then Val 0 else
      hash ← bucket_index m k key_size;
      if bool_decide (map_bucketcount m ≤ hash) then Val 0 else
      match map_buckets m !! Z.to_nat hash with
      | None => UB
      | Some iterator =>
          r ← chain_find iterator k key_size;
          match r with
          | None => Val 0
          | Some it => Val (bkt_value it)
          end
      end
  | _, _ => Val 0
  end.

(** ** Removal *)

(** The loop of [hashmap_remove]: the first entry that compares equal,
    and the chain without it. *)
Fixpoint chain_unlink (iterator : chain) (key : list byte) (key_size : Z)
    : result (option (_hashbucket_s * chain)) :=
  match iterator with
  | [] => Val None
  | it :: next =>
      same ← memcmp (bkt_key it) key (Z.to_nat key_size);
      if same : bool then Val (Some (it, next))
      else
        r ← chain_unlink next key key_size;
        match r with
        | None => Val None
        | Some (found, rest) => Val (Some (found, it :: rest))
        end
  end.

Definition hashmap_remove (map : hashmap_t) (key : option (list byte))
    (key_size : Z) (w : world) : result (bool * hashmap_t * world) :=
  match map, key with
  | Some m, Some k =>
      if bool_decide (key_size = 0) then Val (false, map, w) else
      hash ← bucket_index m k key_size;
      if bool_decide (map_bucketcount m ≤ hash) then Val (false, map, w) else
      match map_buckets m !! Z.to_nat hash with
      | None => UB
      | Some iterator =>
          r ← chain_unlink iterator k key_size;
          match r with
          | None => Val (false, map, w)
          | Some (it, rest) =>
              Val (true,
                   Some (set_buckets m
                           (<[Z.to_nat hash := rest]> (map_buckets m))),
                   World (heap w)
                     (_hashbucket_free it (map_value_free_function m)
                        (env w)))
          end
      end
  | _, _ => Val (false, map, w)
  end.

(** ** Sequences of operations *)

Inductive op : Type :=
| OpAdd (key : option (list byte)) (key_size : Z) (value : Z)
| OpRemove (key : option (list byte)) (key_size : Z).

Definition step (o : op) (map : hashmap_t) (w : world)
    : result (bool * hashmap_t * world) :=
  match o with
  | OpAdd key key_size value => hashmap_add map key key_size value w
  | OpRemove key key_size => hashmap_remove map key key_size w
  end.

Fixpoint run (ops : list op) (map : hashmap_t) (w : world)
    : result (hashmap_t * world) :=
  match ops with
  | [] => Val (map, w)
  | o :: ops' => '(_, map', w') ← step o map w; run ops' map' w'
  end.

(** ** Vocabulary of the statements *)

(** The comparison of entry [it] with the [n] bytes at [key] is defined
    and reports a difference, so the loops step past [it]. *)
Definition differs (key : list byte) (n : nat) (it : _hashbucket_s) : Prop :=
  memcmp (bkt_key it) key n = Val false.

(** What identifies an entry: its key bytes and its key length. *)
Definition entry_key (it : _hashbucket_s) : list byte * Z :=
  (bkt_key it, bkt_key_size it).

(** No two entries of the chain have the same key bytes and length. *)
Definition unique_keys (c : chain) : Prop := NoDup (entry_key <$> c).

(** All entries: bucket index ascending, chain order within a bucket. *)
Definition entries (m : _hashmap_s) : chain := concat (map_buckets m).

(** The array holds the [bucketcount] chains it was allocated with. *)
Definition sized (m : _hashmap_s) : Prop :=
  length (map_buckets m) = Z.to_nat (map_bucketcount m).

(** The value an entry receives on insertion and the caller's state
    afterwards: the result of the clone function when there is one, the
    caller's reference otherwise. *)
Definition stored (value_clone_function : option clone_fn) (value : Z)
    (e : E) : Z * E :=
  match value_clone_function with
  | Some clone => clone value e
  | None => (value, e)
  end.

(** The map holds the entry [nb] for the [key_size] bytes at [k]: [nb] is
    in the chain of the bucket of the key, its key is these bytes, and
    every other entry of that chain differs from them. *)
Definition present (k : list byte) (key_size : Z) (nb : _hashbucket_s)
    (m : _hashmap_s) : Prop :=
  sized m ∧
  key_size ≤ Z.of_nat (length k) ∧
  bkt_key nb = take (Z.to_nat key_size) k ∧
  ∃ index pre post,
    bucket_index m k key_size = Val index ∧
    map_buckets m !! Z.to_nat index = Some (pre ++ nb :: post) ∧
    Forall (differs k (Z.to_nat key_size)) pre ∧
    Forall (differs k (Z.to_nat key_size)) post.

(** The operation is not a removal that an entry with key [stored]
    answers to: the bytes it asks to remove are not the first bytes of
    [stored]. *)
Definition spares (stored : list byte) (o : op) : Prop :=
  match o with
  | OpRemove (Some k') key_size' =>
      memcmp stored k' (Z.to_nat key_size') ≠ Val true
  | _ => True
  end.

(** The shape [hashmap_new] gives a map: as many chains as
    [bucketcount], a power of two, and a [hashmask] of all lower bits. *)
Definition well_formed (m : _hashmap_s) : Prop :=
  sized m ∧
  ∃ s, 0 ≤ s ∧ map_bucketcount m = 2 ^ s ∧ map_hashmask m = 2 ^ s - 1.

(** Every stored key has [n] bytes. *)
Definition fixed_keys (n : Z) (m : _hashmap_s) : Prop :=
  Forall (Forall (λ it, Z.of_nat (length (bkt_key it)) = n)) (map_buckets m).

(** The operation passes a key of [n] bytes, in a buffer that holds
    them. *)
Definition fixed_key_op (n : Z) (o : op) : Prop :=
  match o with
  | OpAdd (Some k) key_size _ | OpRemove (Some k) key_size =>
      key_size = n ∧ n ≤ Z.of_nat (length k)
  | _ => False
  end.

(** Every entry is in the chain that the hash of its stored key
    selects. *)
Definition placed (m : _hashmap_s) : Prop :=
  ∀ i c it, map_buckets m !! i = Some c → it ∈ c →
    Z.land (uint32 (map_hash_function m (bkt_key it))) (map_hashmask m)
    = Z.of_nat i.

(** A map whose keys all have [n] bytes: well formed, every entry in the
    chain of its key, and no chain with two entries of the same key. *)
Definition dictionary (n : Z) (m : _hashmap_s) : Prop :=
  well_formed m ∧ fixed_keys n m ∧ placed m ∧
  Forall (λ c : chain, NoDup (bkt_key <$> c)) (map_buckets m).

(** The operation passes the argument checks: a key pointer that is not
    [NULL] and a key length that is not zero. *)
Definition checked_op (o : op) : Prop :=
  match o with
  | OpAdd (Some _) key_size _ | OpRemove (Some _) key_size => key_size ≠ 0
  | _ => False
  end.

(** The values passed to [hashmap_add], in the order of the calls. *)
Definition added_values (ops : list op) : list Z :=
  omap (λ o, match o with OpAdd _ _ v => Some v | _ => None end) ops.

(** The values that are not [NULL]. *)
Definition non_null (vs : list Z) : list Z := filter (λ v, v ≠ 0) vs.

End Hashmap.

Arguments world : clear implicits.
Arguments _hashmap_s : clear implicits.
Arguments hashmap_t : clear implicits.
Arguments clone_fn : clear implicits.
Arguments free_fn : clear implicits.
Arguments apply_fn : clear implicits.

(** ** Sample inputs *)

Definition key_abc : list byte := ["a"; "b"; "c"]%byte.
Definition key_ab : list byte := ["a"; "b"]%byte.
Definition key_xy : list byte := ["x"; "y"]%byte.
Definition key_b : list byte := ["b"]%byte.

(** A key of 257 bytes. *)
Definition key_long : list byte := replicate 257 "x"%byte.

(** A hash function: the sum of the bytes. *)
Definition byte_sum : hash_fn :=
  foldr (λ b h, Z.of_N (Byte.to_N b) + h) 0.

(** Callbacks that record the values they are called on. *)
Definition record_call : Z → list Z → list Z := λ v calls, calls ++ [v].

Definition sample_ops : list op :=
  [OpAdd (Some key_abc) 3 10; OpAdd (Some key_ab) 2 20;
   OpAdd (Some key_xy) 2 30; OpAdd (Some key_abc) 3 40;
   OpAdd (Some key_b) 1 50; OpRemove (Some key_ab) 2].

(** Two buckets, no clone function, [record_call] as free function. *)
Definition sample_new : _hashmap_s (list Z) :=
  Hashmap 2 [[]; []] 1 byte_sum (Some record_call) None.

(** [sample_new] after [sample_ops]. *)
Definition sample_map : _hashmap_s (list Z) :=
  Hashmap 2 [[Bucket key_abc 3 10; Bucket key_b 1 50]; [Bucket key_xy 2 30]]
    1 byte_sum (Some record_call) None.

(** One bucket holding ["abc"], no clone function, [record_call] as free
    function. *)
Definition sample_owner : _hashmap_s (list Z) :=
  Hashmap 1 [[Bucket key_abc 3 10]] 0 byte_sum (Some record_call) None.

(** [sample_new] after the insertion of ["abc"]. *)
Definition sample_abc : _hashmap_s (list Z) :=
  Hashmap 2 [[Bucket key_abc 3 10]; []] 1 byte_sum (Some record_call) None.

(** Operations that leave the entry of ["abc"] alone. *)
Definition sample_tail : list op :=
  [OpAdd (Some key_xy) 2 30; OpAdd (Some key_b) 1 50;
   OpRemove (Some key_xy) 2].

(** [sample_abc] after [sample_tail]. *)
Definition sample_abc_b : _hashmap_s (list Z) :=
  Hashmap 2 [[Bucket key_abc 3 10; Bucket key_b 1 50]; []]
    1 byte_sum (Some record_call) None.

(** Operations on keys of two bytes. *)
Definition sample_fixed_ops : list op :=
  [OpAdd (Some key_ab) 2 20; OpAdd (Some key_xy) 2 30;
   OpAdd (Some key_ab) 2 40; OpRemove (Some key_xy) 2].

(** [sample_new] after [sample_fixed_ops]. *)
Definition sample_fixed : _hashmap_s (list Z) :=
  Hashmap 2 [[]; [Bucket key_ab 2 20]] 1 byte_sum (Some record_call) None.

(** One bucket, so that every key falls into the same chain whatever the
    hash function. *)
Definition single_bucket {E} (hash : hash_fn) (c : chain) : _hashmap_s E :=
  Hashmap 1 [c] 0 hash None None.

(** * Properties *)

(** ** Sizing of the bucket array *)

Lemma uint8_small z : 0 ≤ z < 256 → uint8 z = z.
Proof. intros H. unfold uint8. apply Z.mod_small. lia. Qed.

Lemma uint32_small z : 0 ≤ z < 2 ^ 32 → uint32 z = z.
Proof. intros H. unfold uint32. apply Z.mod_small. lia. Qed.

(** The loop leaves the position of the highest set bit in [shifts], and
    as many iterations as [count] has bits suffice. *)
Lemma highest_bit_log2 fuel : ∀ count shifts,
  1 ≤ count < 2 ^ Z.of_nat fuel →
  0 ≤ shifts → shifts + Z.log2 count < 256 →
  highest_bit fuel count shifts = Some (shifts + Z.log2 count).
Proof.
  induction fuel as [|fuel IH]; intros count shifts Hc Hs Hb.
  - change (2 ^ Z.of_nat 0) with 1 in Hc. lia.
  - cbn [highest_bit]. case_bool_decide as Hgt.
    + assert (H1 : 1 ≤ Z.log2 count) by (apply Z.log2_le_pow2; lia).
      assert (Hl : Z.log2 (Z.shiftr count 1) = Z.log2 count - 1).
      { rewrite Z.log2_shiftr by lia. lia. }
      rewrite Z.shiftr_div_pow2 in * by lia. change (2 ^ 1) with 2 in *.
      rewrite uint8_small by lia.
      rewrite IH.
      * f_equal. lia.
      * rewrite Nat2Z.inj_succ, Z.pow_succ_r in Hc by lia.
        split; [apply Z.div_le_lower_bound | apply Z.div_lt_upper_bound]; lia.
      * lia.
      * lia.
    + assert (count = 1) as -> by lia. change (Z.log2 1) with 0.
      f_equal. lia.
Qed.

Lemma bucket_shifts_spec c :
  1 ≤ c < 2 ^ 30 →
  bucket_shifts c =
    Val (if bool_decide (2 ^ (Z.log2 c + 1) - c < c - 2 ^ Z.log2 c)
         then Z.log2 c + 1 else Z.log2 c).
Proof.
  intros Hc. unfold bucket_shifts.
  assert (Hl : 0 ≤ Z.log2 c < 30).
  { split; [apply Z.log2_nonneg | apply Z.log2_lt_pow2; lia]. }
  rewrite (highest_bit_log2 32 c 0) by (change (2 ^ Z.of_nat 32) with (2 ^ 32); lia).
  rewrite Z.add_0_l. unfold shl_int.
  rewrite !bool_decide_eq_true_2 by lia. cbn [mbind result_bind].
  destruct (Z.log2_spec c) as [Hlo Hhi]; [lia|].
  replace (Z.succ (Z.log2 c)) with (Z.log2 c + 1) in Hhi by lia.
  assert (2 ^ (Z.log2 c + 1) ≤ 2 ^ 30) by (apply Z.pow_le_mono_r; lia).
  rewrite !uint32_small by lia.
  rewrite uint8_small by lia. by case_bool_decide.
Qed.

(** Requests of 1, 3, 5, 6 and 7 buckets give 1, 2, 4, 4 and 8 buckets. *)
Lemma bucket_shifts_examples :
  bucket_shifts <$> [1; 3; 5; 6; 7] = Val <$> [0; 1; 2; 2; 3].
Proof. reflexivity. Qed.

Section Sizing.
Context {E : Type}.
Implicit Types (w : world E) (m : _hashmap_s E).

(** For a request below [2^30] the construction is defined, and it
    returns a map whenever both allocations succeed. *)
Lemma hashmap_new_returns c hash clone free (e : E) :
  1 ≤ c < 2 ^ 30 →
  ∃ m, hashmap_new c (Some hash) clone free (World [] e)
       = Val (Some m, World [] e).
Proof.
  intros Hc. unfold hashmap_new.
  rewrite bool_decide_eq_false_2 by lia. cbn [malloc heap negb].
  rewrite bucket_shifts_spec by done. cbn. eauto.
Qed.

Lemma hashmap_new_inv c hash clone free w m w' :
  1 ≤ c < 2 ^ 30 →
  hashmap_new c (Some hash) clone free w = Val (Some m, w') →
  ∃ s, bucket_shifts c = Val s ∧ 0 ≤ s ≤ 30 ∧
       m = Hashmap (2 ^ s) (replicate (Z.to_nat (2 ^ s)) [])
             (2 ^ s - 1) hash free clone.
Proof.
  intros Hc. unfold hashmap_new.
  rewrite bool_decide_eq_false_2 by lia.
  destruct (malloc w) as [[] w1]; cbn [negb]; [|discriminate].
  rewrite bucket_shifts_spec by done. cbn [mbind result_bind].
  set (s := if bool_decide _ then _ else _).
  assert (Hs : 0 ≤ s ≤ 30).
  { assert (0 ≤ Z.log2 c < 30).
    { split; [apply Z.log2_nonneg | apply Z.log2_lt_pow2; lia]. }
    subst s. case_bool_decide; lia. }
  destruct (malloc w1) as [[] w2]; cbn [negb]; [|discriminate].
  intros [= <- <-]. exists s. split; [done|]. split; [done|].
  rewrite Z.shiftl_1_l.
  assert (0 < 2 ^ s) by (apply Z.pow_pos_nonneg; lia).
  assert (2 ^ s ≤ 2 ^ 30) by (apply Z.pow_le_mono_r; lia).
  rewrite (uint32_small (2 ^ s)) by lia.
  rewrite uint32_small by lia. reflexivity.
Qed.

(** C1, as the code behaves: for a requested capacity [1 <= c < 2^30],
    the [bucketcount] of the map returned by [hashmap_new] is a power of
    two, no power of two is nearer to [c], and among two powers of two
    at the same distance from [c] the smaller one is taken (ties round
    down); [hashmask = bucketcount - 1], and the array has [bucketcount]
    chains. *)
Theorem hashmap_new_bucketcount_nearest c hash clone free w m w' :
  1 ≤ c < 2 ^ 30 →
  hashmap_new c (Some hash) clone free w = Val (Some m, w') →
  (∃ s, 0 ≤ s ≤ 30 ∧ map_bucketcount m = 2 ^ s) ∧
  (∀ j, 0 ≤ j → Z.abs (c - map_bucketcount m) ≤ Z.abs (c - 2 ^ j)) ∧
  (∀ j, 0 ≤ j → Z.abs (c - 2 ^ j) = Z.abs (c - map_bucketcount m) →
        map_bucketcount m ≤ 2 ^ j) ∧
  map_hashmask m = map_bucketcount m - 1 ∧
  Z.of_nat (length (map_buckets m)) = map_bucketcount m.
Proof.
  intros Hc Hnew.
  destruct (hashmap_new_inv _ _ _ _ _ _ _ Hc Hnew) as (s & Hs & Hr & ->).
  cbn [map_bucketcount map_hashmask map_buckets].
  rewrite bucket_shifts_spec in Hs by done. injection Hs as Hs.
  assert (Hl : 0 ≤ Z.log2 c) by apply Z.log2_nonneg.
  destruct (Z.log2_spec c) as [Hlo Hhi]; [lia|].
  replace (Z.succ (Z.log2 c)) with (Z.log2 c + 1) in Hhi by lia.
  assert (Hpow : ∀ j, 0 ≤ j →
            (j ≤ Z.log2 c ∧ 2 ^ j ≤ 2 ^ Z.log2 c) ∨
            (Z.log2 c + 1 ≤ j ∧ 2 ^ (Z.log2 c + 1) ≤ 2 ^ j)).
  { intros j Hj. destruct (Z_le_gt_dec j (Z.log2 c)).
    - left. split; [done|]. apply Z.pow_le_mono_r; lia.
    - right. split; [lia|]. apply Z.pow_le_mono_r; lia. }
  assert (0 < 2 ^ s) by (apply Z.pow_pos_nonneg; lia).
  split; [eauto|]. split; [|split; [|split]].
  - intros j Hj. destruct (Hpow j Hj) as [[? ?]|[? ?]];
      case_bool_decide; subst s; lia.
  - intros j Hj. destruct (Hpow j Hj) as [[? ?]|[? ?]];
      case_bool_decide; subst s; lia.
  - reflexivity.
  - rewrite length_replicate. lia.
Qed.

End Sizing.

(** ** The result monad *)

Lemma bind_Val {A B} (r : result A) (f : A → result B) b :
  r ≫= f = Val b → ∃ a, r = Val a ∧ f a = Val b.
Proof. destruct r as [a|]; [eauto | discriminate]. Qed.

(** Splits a hypothesis [r ≫= f = Val b] into its two steps. *)
Tactic Notation "inv_bind" hyp(H) :=
  let a := fresh "r" in
  let Ha := fresh "Hr" in
  apply bind_Val in H as (a & Ha & H).

Tactic Notation "inv_bind" hyp(H) "as" ident(a) ident(Ha) :=
  apply bind_Val in H as (a & Ha & H).

(** ** Comparison of keys *)

Lemma byte_eqb_refl b : Byte.eqb b b = true.
Proof. by apply Byte.byte_dec_lb. Qed.

(** [memcmp] looks at the first [n] bytes only. *)
Lemma memcmp_take_r n : ∀ s k, memcmp s (take n k) n = memcmp s k n.
Proof.
  induction n as [|n IH]; intros s k; [done|].
  destruct s as [|b1 s], k as [|b2 k]; cbn; try done.
  by rewrite IH.
Qed.

Lemma memcmp_refl n : ∀ l, (n ≤ length l)%nat → memcmp l l n = Val true.
Proof.
  induction n as [|n IH]; intros [|b l] Hl; cbn in *; try done; try lia.
  rewrite byte_eqb_refl. apply IH. lia.
Qed.

(** A buffer never differs from itself. *)
Lemma memcmp_self_not_false n : ∀ l, memcmp l l n ≠ Val false.
Proof.
  induction n as [|n IH]; intros [|b l]; cbn; try done.
  by rewrite byte_eqb_refl.
Qed.

(** Equality of the first [n] bytes is what [memcmp] reports as [0]. *)
Lemma memcmp_true n : ∀ s k,
  memcmp s k n = Val true ↔
  take n s = take n k ∧ (n ≤ length s)%nat ∧ (n ≤ length k)%nat.
Proof.
  induction n as [|n IH]; intros s k.
  - cbn. rewrite !take_0. split; [intros _; repeat split; lia | done].
  - destruct s as [|b1 s], k as [|b2 k]; cbn; try (split; [done | lia]).
    destruct (Byte.eqb b1 b2) eqn:Hb.
    + apply Byte.byte_dec_bl in Hb as ->. rewrite IH. split.
      * intros (-> & ? & ?). repeat split; lia.
      * intros ([= ->] & ? & ?). repeat split; lia.
    + apply Byte.eqb_false in Hb. split; [done|].
      intros ([= ? ?] & _). done.
Qed.

(** A difference is found at a position both buffers have, so it is
    found from either side, whatever the number of bytes asked for
    beyond that position. *)
Lemma memcmp_false_sym n : ∀ s k n',
  memcmp s k n = Val false → (length s ≤ n')%nat →
  memcmp k s n' = Val false.
Proof.
  induction n as [|n IH]; intros s k n' H Hn'; [done|].
  destruct s as [|b1 s], k as [|b2 k]; cbn in H; try done.
  destruct n' as [|n']; cbn in Hn'; [lia|]. cbn.
  destruct (Byte.eqb b1 b2) eqn:Hb.
  - apply Byte.byte_dec_bl in Hb as ->. rewrite byte_eqb_refl.
    apply (IH _ _ _ H). lia.
  - destruct (Byte.eqb b2 b1) eqn:Hb'; [|done].
    apply Byte.byte_dec_bl in Hb' as ->. by rewrite byte_eqb_refl in Hb.
Qed.

(** ** The three chain loops *)

Section Chains.
Implicit Types (c pre post : chain) (it nb : _hashbucket_s).

Lemma chain_append_Some c nb c' :
  chain_append c nb = Val (Some c') →
  c' = c ++ [nb] ∧
  Forall (differs (bkt_key nb) (Z.to_nat (bkt_key_size nb))) c.
Proof.
  revert c'. induction c as [|it c IH]; intros c' H; cbn in H.
  - by injection H as <-.
  - inv_bind H. destruct r; [done|].
    inv_bind H. destruct r as [c0|]; [|done]. injection H as <-.
    destruct (IH _ Hr0) as [-> ?]. split; [done|]. by constructor.
Qed.

Lemma chain_append_None c nb :
  chain_append c nb = Val None →
  ∃ pre it post, c = pre ++ it :: post ∧
    Forall (differs (bkt_key nb) (Z.to_nat (bkt_key_size nb))) pre ∧
    memcmp (bkt_key it) (bkt_key nb) (Z.to_nat (bkt_key_size nb)) = Val true.
Proof.
  induction c as [|it c IH]; intros H; cbn in H; [done|].
  inv_bind H. destruct r.
  - exists [], it, c. by repeat split.
  - inv_bind H. destruct r as [c0|]; [done|].
    destruct (IH Hr0) as (pre & it' & post & -> & ? & ?).
    exists (it :: pre), it', post. repeat split; [|done]. by constructor.
Qed.

Lemma chain_append_differs c nb :
  Forall (differs (bkt_key nb) (Z.to_nat (bkt_key_size nb))) c →
  chain_append c nb = Val (Some (c ++ [nb])).
Proof.
  induction 1 as [|it c Hit _ IH]; cbn; [done|].
  unfold differs in Hit. by rewrite Hit, IH.
Qed.

Lemma chain_append_match pre it post nb :
  Forall (differs (bkt_key nb) (Z.to_nat (bkt_key_size nb))) pre →
  memcmp (bkt_key it) (bkt_key nb) (Z.to_nat (bkt_key_size nb)) = Val true →
  chain_append (pre ++ it :: post) nb = Val None.
Proof.
  intros Hpre Hit. induction Hpre as [|it' pre Hit' _ IH]; cbn.
  - by rewrite Hit.
  - unfold differs in Hit'. by rewrite Hit', IH.
Qed.

Lemma chain_find_Some c key key_size it :
  chain_find c key key_size = Val (Some it) →
  ∃ pre post, c = pre ++ it :: post ∧
    Forall (differs key (Z.to_nat key_size)) pre ∧
    memcmp (bkt_key it) key (Z.to_nat key_size) = Val true.
Proof.
  induction c as [|it' c IH]; intros H; cbn in H; [done|].
  inv_bind H. destruct r.
  - injection H as ->. exists [], c. by repeat split.
  - destruct (IH H) as (pre & post & -> & ? & ?).
    exists (it' :: pre), post. repeat split; [|done]. by constructor.
Qed.

Lemma chain_find_match pre it post key key_size :
  Forall (differs key (Z.to_nat key_size)) pre →
  memcmp (bkt_key it) key (Z.to_nat key_size) = Val true →
  chain_find (pre ++ it :: post) key key_size = Val (Some it).
Proof.
  intros Hpre Hit. induction Hpre as [|it' pre Hit' _ IH]; cbn.
  - by rewrite Hit.
  - unfold differs in Hit'. by rewrite Hit'.
Qed.

Lemma chain_find_differs c key key_size :
  Forall (differs key (Z.to_nat key_size)) c →
  chain_find c key key_size = Val None.
Proof.
  induction 1 as [|it c Hit _ IH]; cbn; [done|].
  unfold differs in Hit. by rewrite Hit.
Qed.

Lemma chain_unlink_Some c key key_size it rest :
  chain_unlink c key key_size = Val (Some (it, rest)) →
  ∃ pre post, c = pre ++ it :: post ∧ rest = pre ++ post ∧
    Forall (differs key (Z.to_nat key_size)) pre ∧
    memcmp (bkt_key it) key (Z.to_nat key_size) = Val true.
Proof.
  revert rest. induction c as [|it' c IH]; intros rest H; cbn in H; [done|].
  inv_bind H. destruct r.
  - injection H as <- <-. exists [], c. by repeat split.
  - inv_bind H. destruct r as [[found rest']|]; [|done].
    injection H as -> <-.
    destruct (IH _ Hr0) as (pre & post & -> & -> & ? & ?).
    exists (it' :: pre), post. repeat split; [|done]. by constructor.
Qed.

Lemma chain_unlink_match pre it post key key_size :
  Forall (differs key (Z.to_nat key_size)) pre →
  memcmp (bkt_key it) key (Z.to_nat key_size) = Val true →
  chain_unlink (pre ++ it :: post) key key_size
  = Val (Some (it, pre ++ post)).
Proof.
  intros Hpre Hit. induction Hpre as [|it' pre Hit' _ IH]; cbn.
  - by rewrite Hit.
  - unfold differs in Hit'. by rewrite Hit', IH.
Qed.

Lemma chain_unlink_differs c key key_size :
  Forall (differs key (Z.to_nat key_size)) c →
  chain_unlink c key key_size = Val None.
Proof.
  induction 1 as [|it c Hit _ IH]; cbn; [done|].
  unfold differs in Hit. by rewrite Hit, IH.
Qed.

End Chains.

(** ** What the operations do to the map *)

Section Operations.
Context {E : Type}.
Implicit Types (w : world E) (m : _hashmap_s E) (map : hashmap_t E).
Implicit Types (c old pre post : chain) (it nb : _hashbucket_s).
Implicit Types (k : list byte) (key : option (list byte)).

Lemma malloc_env w ok w' : malloc w = (ok, w') → env w' = env w.
Proof.
  unfold malloc. destruct w as [[|b h] e]; cbn; by intros [= <- <-].
Qed.

Lemma bytes_at_Val k n bytes :
  bytes_at k n = Val bytes →
  n ≤ Z.of_nat (length k) ∧ bytes = take (Z.to_nat n) k.
Proof. unfold bytes_at. case_bool_decide; [|done]. by intros [= <-]. Qed.

Lemma _hashbucket_new_Some k n v clone w nb w' :
  _hashbucket_new k n v clone w = Val (Some nb, w') →
  ∃ w1 w2, malloc w = (true, w1) ∧ malloc w1 = (true, w2) ∧
    n ≤ Z.of_nat (length k) ∧
    nb = Bucket (take (Z.to_nat n) k) n (stored clone v (env w)).1 ∧
    w' = World (heap w2) (stored clone v (env w)).2.
Proof.
  unfold _hashbucket_new.
  destruct (malloc w) as [[] w1] eqn:H1; cbn [negb]; [|done].
  destruct (malloc w1) as [[] w2] eqn:H2; cbn [negb]; [|done].
  intros H. inv_bind H. apply bytes_at_Val in Hr as [? ->].
  exists w1, w2.
  assert (He : env w2 = env w).
  { rewrite (malloc_env _ _ _ H2). apply (malloc_env _ _ _ H1). }
  rewrite <- He. destruct clone as [cl|]; cbn in *.
  - destruct (cl v (env w2)) as [v' e']. by injection H as <- <-.
  - injection H as <- <-. by destruct w2.
Qed.

Lemma insert_at_true m nb index m' :
  _hashmap_hashbucket_insert_at m nb index = Val (true, m') →
  ∃ old, map_buckets m !! Z.to_nat index = Some old ∧
    Forall (differs (bkt_key nb) (Z.to_nat (bkt_key_size nb))) old ∧
    m' = set_buckets m (<[Z.to_nat index := old ++ [nb]]> (map_buckets m)).
Proof.
  unfold _hashmap_hashbucket_insert_at.
  destruct (map_buckets m !! Z.to_nat index) as [[|it c]|] eqn:Hc; [| |done].
  - intros [= <-]. exists []. by repeat split.
  - intros H. inv_bind H. destruct r as [c'|]; [|done]. injection H as <-.
    apply chain_append_Some in Hr as [-> ?]. by exists (it :: c).
Qed.

Lemma insert_at_false m nb index m' :
  _hashmap_hashbucket_insert_at m nb index = Val (false, m') →
  m' = m ∧
  ∃ pre it post, map_buckets m !! Z.to_nat index = Some (pre ++ it :: post) ∧
    Forall (differs (bkt_key nb) (Z.to_nat (bkt_key_size nb))) pre ∧
    memcmp (bkt_key it) (bkt_key nb) (Z.to_nat (bkt_key_size nb)) = Val true.
Proof.
  unfold _hashmap_hashbucket_insert_at.
  destruct (map_buckets m !! Z.to_nat index) as [[|it c]|] eqn:Hc; [done| |done].
  intros H. inv_bind H. destruct r as [c'|]; [done|]. injection H as <-.
  split; [done|]. apply chain_append_None in Hr as (pre & it' & post & Hc' & ? & ?).
  exists pre, it', post. by rewrite Hc'.
Qed.

(** A successful [hashmap_add] links one new entry behind the last entry
    of the chain of its bucket; its key is the first [key_size mod 256]
    bytes at [key]. *)
Lemma hashmap_add_true m k key_size v w map' w' :
  hashmap_add (Some m) (Some k) key_size v w = Val (true, map', w') →
  ∃ index old nb,
    key_size ≠ 0 ∧ key_size ≤ Z.of_nat (length k) ∧
    bucket_index m k key_size = Val index ∧
    map_buckets m !! Z.to_nat index = Some old ∧
    Forall (differs (bkt_key nb) (Z.to_nat (bkt_key_size nb))) old ∧
    nb = Bucket (take (Z.to_nat (uint8 key_size)) k) (uint8 key_size)
           (stored (map_value_clone_function m) v (env w)).1 ∧
    map' = Some (set_buckets m
                   (<[Z.to_nat index := old ++ [nb]]> (map_buckets m))) ∧
    env w' = (stored (map_value_clone_function m) v (env w)).2.
Proof.
  unfold hashmap_add. case_bool_decide as Hks; [done|].
  intros H. inv_bind H. destruct r as [[nb|] w1]; [|done].
  inv_bind H. rename r into index. inv_bind H. destruct r as [[] m'']; [|done].
  injection H as <- <-.
  apply _hashbucket_new_Some in Hr as (w2 & w3 & _ & _ & _ & -> & ->).
  apply insert_at_true in Hr1 as (old & Hold & Hdiff & ->).
  eexists index, old, _. repeat split; try done.
  unfold bucket_index in Hr0. inv_bind Hr0. by apply bytes_at_Val in Hr as [? _].
Qed.

Lemma hashmap_add_false map key key_size v w map' w' :
  hashmap_add map key key_size v w = Val (false, map', w') → map' = map.
Proof.
  unfold hashmap_add. destruct map as [m|], key as [k|]; try by intros [= <- _].
  case_bool_decide as Hks; [by intros [= <- _]|].
  intros H. inv_bind H. destruct r as [[nb|] w1]; [|by injection H as <- _].
  inv_bind H. inv_bind H. destruct r0 as [[] m'']; [done|].
  injection H as <- _. by apply insert_at_false in Hr1 as [-> _].
Qed.

(** A successful [hashmap_remove] unlinks the first entry of the chain
    whose first [key_size] bytes equal those at [key]. *)
Lemma hashmap_remove_true m k key_size w map' w' :
  hashmap_remove (Some m) (Some k) key_size w = Val (true, map', w') →
  ∃ hash pre it post,
    key_size ≠ 0 ∧
    bucket_index m k key_size = Val hash ∧
    map_buckets m !! Z.to_nat hash = Some (pre ++ it :: post) ∧
    Forall (differs k (Z.to_nat key_size)) pre ∧
    memcmp (bkt_key it) k (Z.to_nat key_size) = Val true ∧
    map' = Some (set_buckets m
                   (<[Z.to_nat hash := pre ++ post]> (map_buckets m))) ∧
    w' = World (heap w)
           (_hashbucket_free it (map_value_free_function m) (env w)).
Proof.
  unfold hashmap_remove. case_bool_decide as Hks; [done|].
  intros H. inv_bind H. rename r into hash.
  case_bool_decide as Hge; [done|].
  destruct (map_buckets m !! Z.to_nat hash) as [c|] eqn:Hc; [|done].
  inv_bind H. destruct r as [[it rest]|]; [|done]. injection H as <- <-.
  apply chain_unlink_Some in Hr0 as (pre & post & -> & -> & ? & ?).
  by exists hash, pre, it, post.
Qed.

Lemma hashmap_remove_false map key key_size w map' w' :
  hashmap_remove map key key_size w = Val (false, map', w') →
  map' = map ∧ w' = w.
Proof.
  unfold hashmap_remove.
  destruct map as [m|], key as [k|]; try by intros [= <- <-].
  case_bool_decide as Hks; [by intros [= <- <-]|].
  intros H. inv_bind H. case_bool_decide as Hge; [by injection H as <- <-|].
  destruct (map_buckets m !! Z.to_nat r) as [c|]; [|done].
  inv_bind H. destruct r0 as [[it rest]|]; [done|]. by injection H as <- <-.
Qed.

(** No operation replaces the map by [NULL]. *)
Lemma step_Some o m w b map' w' :
  step o (Some m) w = Val (b, map', w') → ∃ m', map' = Some m'.
Proof.
  destruct o as [key ks v|key ks]; cbn [step]; intros H.
  - destruct b.
    + destruct key as [k|]; [|done].
      apply hashmap_add_true in H as (? & ? & ? & _ & _ & _ & _ & _ & _ & -> & _).
      eauto.
    + apply hashmap_add_false in H as ->. eauto.
  - destruct b.
    + destruct key as [k|]; [|done].
      apply hashmap_remove_true in H as (? & ? & ? & ? & _ & _ & _ & _ & _ & -> & _).
      eauto.
    + apply hashmap_remove_false in H as [-> _]. eauto.
Qed.

(** A property of maps that every operation preserves holds after any
    sequence of operations. *)
Lemma run_preserves (P : _hashmap_s E → Prop) :
  (∀ o m w b m' w',
     P m → step o (Some m) w = Val (b, Some m', w') → P m') →
  ∀ ops m w m' w',
    P m → run ops (Some m) w = Val (Some m', w') → P m'.
Proof.
  intros Hstep. induction ops as [|o ops IH]; intros m w m' w' HP H; cbn in H.
  - by injection H as <- _.
  - inv_bind H. destruct r as [[b map1] w1].
    destruct (step_Some _ _ _ _ _ _ Hr) as [m1 ->]. eauto.
Qed.

End Operations.

(** ** Invariants of the maps the interface produces *)

Section Invariants.
Context {E : Type}.
Implicit Types (w : world E) (m : _hashmap_s E) (map : hashmap_t E).
Implicit Types (c old pre post : chain) (it nb : _hashbucket_s).

(** A new map has [bucketcount] empty chains. *)
Lemma hashmap_new_buckets bucketcount hash clone free w m w' :
  hashmap_new bucketcount hash clone free w = Val (Some m, w') →
  map_buckets m = replicate (Z.to_nat (map_bucketcount m)) [].
Proof.
  unfold hashmap_new. case_bool_decide as Hc; [done|].
  destruct hash as [h|]; [|done].
  destruct (malloc w) as [[] w1]; cbn [negb]; [|done].
  intros H. inv_bind H.
  destruct (malloc w1) as [[] w2]; cbn [negb]; [|done].
  by injection H as <- _.
Qed.

Lemma NoDup_app_middle {A} (l1 l2 : list A) x :
  NoDup (l1 ++ x :: l2) → NoDup (l1 ++ l2).
Proof.
  rewrite !NoDup_app, NoDup_cons. intros (? & Hd & _ & ?).
  repeat split; [done| |done].
  intros y Hy Hy'. apply (Hd y Hy). by right.
Qed.

Lemma unique_keys_append old nb :
  unique_keys old →
  Forall (differs (bkt_key nb) (Z.to_nat (bkt_key_size nb))) old →
  unique_keys (old ++ [nb]).
Proof.
  unfold unique_keys. intros Hold Hdiff. rewrite fmap_app.
  apply NoDup_app. repeat split; [done| |apply NoDup_singleton].
  intros x Hx Hx'. cbn in Hx'. apply list_elem_of_singleton in Hx' as ->.
  apply list_elem_of_fmap in Hx as (it & Heq & Hit).
  rewrite Forall_forall in Hdiff. specialize (Hdiff it Hit).
  unfold differs in Hdiff. injection Heq as Hk _. rewrite <- Hk in Hdiff.
  by apply memcmp_self_not_false in Hdiff.
Qed.

Lemma unique_keys_unlink pre it post :
  unique_keys (pre ++ it :: post) → unique_keys (pre ++ post).
Proof.
  unfold unique_keys. rewrite !fmap_app, fmap_cons. apply NoDup_app_middle.
Qed.

Lemma step_unique_keys o m w b m' w' :
  Forall unique_keys (map_buckets m) →
  step o (Some m) w = Val (b, Some m', w') →
  Forall unique_keys (map_buckets m').
Proof.
  intros Hm H. destruct b.
  - destruct o as [[k|] ks v|[k|] ks]; cbn [step] in H; try done.
    + apply hashmap_add_true in H
        as (index & old & nb & _ & _ & _ & Hold & Hdiff & _ & [= ->] & _).
      cbn. apply Forall_insert; [done|].
      apply unique_keys_append; [|done].
      by eapply Forall_lookup_1 in Hold.
    + apply hashmap_remove_true in H
        as (hash & pre & it & post & _ & _ & Hc & _ & _ & [= ->] & _).
      cbn. apply Forall_insert; [done|].
      eapply unique_keys_unlink. by eapply Forall_lookup_1 in Hc.
  - destruct o as [key ks v|key ks]; cbn [step] in H.
    + by apply hashmap_add_false in H as [= ->].
    + by apply hashmap_remove_false in H as [[= ->] _].
Qed.

(** C6: after any sequence of [hashmap_add] and [hashmap_remove] calls on
    a map returned by [hashmap_new], no chain holds two entries with the
    same key bytes and key length. *)
Theorem chains_have_unique_keys bucketcount hash clone free w0 m0 w1 ops m w :
  hashmap_new bucketcount hash clone free w0 = Val (Some m0, w1) →
  run ops (Some m0) w1 = Val (Some m, w) →
  Forall unique_keys (map_buckets m).
Proof.
  intros Hnew Hrun.
  eapply (run_preserves (λ m, Forall unique_keys (map_buckets m)));
    [apply step_unique_keys| |done].
  rewrite (hashmap_new_buckets _ _ _ _ _ _ _ Hnew).
  apply Forall_replicate. apply NoDup_nil_2.
Qed.

Lemma step_sized o m w b m' w' :
  sized m → step o (Some m) w = Val (b, Some m', w') → sized m'.
Proof.
  unfold sized. intros Hm H. destruct b.
  - destruct o as [[k|] ks v|[k|] ks]; cbn [step] in H; try done.
    + apply hashmap_add_true in H
        as (? & ? & ? & _ & _ & _ & _ & _ & _ & [= ->] & _).
      cbn. by rewrite length_insert.
    + apply hashmap_remove_true in H
        as (? & ? & ? & ? & _ & _ & _ & _ & _ & [= ->] & _).
      cbn. by rewrite length_insert.
  - destruct o as [key ks v|key ks]; cbn [step] in H.
    + by apply hashmap_add_false in H as [= ->].
    + by apply hashmap_remove_false in H as [[= ->] _].
Qed.

Lemma run_sized bucketcount hash clone free w0 m0 w1 ops m w :
  hashmap_new bucketcount hash clone free w0 = Val (Some m0, w1) →
  run ops (Some m0) w1 = Val (Some m, w) →
  sized m.
Proof.
  intros Hnew Hrun. eapply (run_preserves sized); [apply step_sized| |done].
  unfold sized. rewrite (hashmap_new_buckets _ _ _ _ _ _ _ Hnew).
  by rewrite length_replicate.
Qed.

End Invariants.

(** ** Traversal *)

Section Traversal.
Context {E : Type}.
Implicit Types (w : world E) (m : _hashmap_s E) (f : apply_fn E).

Lemma _hashbucket_apply_foldl f (c : chain) (e : E) :
  _hashbucket_apply c f e = foldl (λ e it, f (bkt_value it) e) e c.
Proof. revert e. induction c as [|it c IH]; intros e; cbn; [done|apply IH]. Qed.

Lemma foldl_concat {A B} (g : A → B → A) (ls : list (list B)) (a : A) :
  foldl g a (concat ls) = foldl (λ a l, foldl g a l) a ls.
Proof.
  revert a. induction ls as [|l ls IH]; intros a; cbn; [done|].
  by rewrite foldl_app, IH.
Qed.

(** The index loop stays inside the array and handles the chains from
    index [i] on, one after the other. *)
Lemma for_buckets_foldl (body : chain → E → E) (buckets : list chain) n :
  ∀ i e, 0 ≤ i → (Z.to_nat i + n)%nat = length buckets →
  for_buckets n i buckets body e
  = Val (foldl (λ e c, body c e) e (drop (Z.to_nat i) buckets)).
Proof.
  induction n as [|n IH]; intros i e Hi Hlen; cbn.
  - by rewrite drop_ge by lia.
  - destruct (buckets !! Z.to_nat i) as [c|] eqn:Hc.
    + rewrite IH by lia.
      rewrite (drop_S _ _ _ Hc). cbn.
      by replace (Z.to_nat (i + 1)) with (S (Z.to_nat i)) by lia.
    + apply lookup_ge_None in Hc. lia.
Qed.

Lemma foldl_fun_ext {A B} (g h : A → B → A) (l : list B) (a : A) :
  (∀ a b, g a b = h a b) → foldl g a l = foldl h a l.
Proof.
  intros Hgh. revert a. induction l as [|b l IH]; intros a; cbn; [done|].
  by rewrite Hgh, IH.
Qed.

Lemma hashmap_apply_sized m f w :
  sized m →
  hashmap_apply (Some m) (Some f) w
  = Val (World (heap w)
           (foldl (λ e it, f (bkt_value it) e) (env w) (entries m))).
Proof.
  unfold sized. intros Hsized. unfold hashmap_apply, entries.
  rewrite for_buckets_foldl by (cbn; lia). cbn. do 2 f_equal.
  rewrite foldl_concat. apply foldl_fun_ext.
  intros e c. apply _hashbucket_apply_foldl.
Qed.

(** C7: on a map produced by [hashmap_new] and any sequence of adds and
    removes, [hashmap_apply] calls the function once on the value of each
    entry present, bucket index ascending and chain order within a bucket:
    the caller's state afterwards is the function applied in turn to the
    values of [entries], which are as many as there are entries. Chain
    order is insertion order, as a successful [hashmap_add] links the new
    entry behind the last entry of its chain. *)
Theorem hashmap_apply_visits_entries
    bucketcount hash clone free w0 m0 w1 ops m w2 f w :
  hashmap_new bucketcount hash clone free w0 = Val (Some m0, w1) →
  run ops (Some m0) w1 = Val (Some m, w2) →
  hashmap_apply (Some m) (Some f) w
  = Val (World (heap w)
           (foldl (λ e v, f v e) (env w) (bkt_value <$> entries m))) ∧
  length (bkt_value <$> entries m) = length (entries m) ∧
  (∀ k key_size v w3 m' w4,
     hashmap_add (Some m) (Some k) key_size v w3 = Val (true, Some m', w4) →
     ∃ i old nb, map_buckets m !! i = Some old ∧
       map_buckets m' = <[i := old ++ [nb]]> (map_buckets m)).
Proof.
  intros Hnew Hrun. split; [|split].
  - rewrite foldl_fmap. apply hashmap_apply_sized. by eapply run_sized.
  - apply length_fmap.
  - intros k ks v w3 m' w4 Hadd.
    apply hashmap_add_true in Hadd
      as (index & old & nb & _ & _ & _ & Hold & _ & _ & [= ->] & _).
    by exists (Z.to_nat index), old, nb.
Qed.

End Traversal.

(** With a function that counts its calls, the count grows by the number
    of entries. *)
Lemma hashmap_apply_call_count
    bucketcount hash clone free (w0 : world nat) m0 w1 ops m w2 w :
  hashmap_new bucketcount hash clone free w0 = Val (Some m0, w1) →
  run ops (Some m0) w1 = Val (Some m, w2) →
  hashmap_apply (Some m) (Some (λ _ calls, S calls)) w
  = Val (World (heap w) (length (entries m) + env w)%nat).
Proof.
  intros Hnew Hrun.
  etrans; [apply hashmap_apply_sized; by eapply run_sized|].
  do 2 f_equal. generalize (env w). generalize (entries m).
  induction l as [|it l IH]; intros n; cbn; [done|]. rewrite IH. lia.
Qed.

(** ** Argument checks, key length and ownership on insertion *)

Section Insertion.
Context {E : Type}.
Implicit Types (w : world E) (m : _hashmap_s E) (map : hashmap_t E).
Implicit Types (k : list byte) (key : option (list byte)).

(** C8: with a key of length zero, [hashmap_add] and [hashmap_remove]
    return [false] and [hashmap_get] returns [NULL], on every map
    ([NULL] included) and for every key pointer; the map and the
    caller's state are left as they were, and no behaviour is
    undefined. *)
Theorem zero_length_key_rejected map key v w :
  hashmap_add map key 0 v w = Val (false, map, w) ∧
  hashmap_get map key 0 = Val 0 ∧
  hashmap_remove map key 0 w = Val (false, map, w).
Proof. by destruct map as [m|], key as [k|]. Qed.

(** C9: when [hashmap_add] stores an entry for a key of more than 255
    bytes, the entry is linked behind the chain of its bucket with
    [key_size mod 256] as its key length and the first
    [key_size mod 256] bytes of the key as its key, fewer bytes than the
    caller passed; the search for a duplicate compared the entries of the
    chain with these first bytes only. *)
Theorem hashmap_add_truncates_key m k key_size v w map' w' :
  255 < key_size →
  hashmap_add (Some m) (Some k) key_size v w = Val (true, map', w') →
  ∃ index old nb,
    map_buckets m !! Z.to_nat index = Some old ∧
    map' = Some (set_buckets m
                   (<[Z.to_nat index := old ++ [nb]]> (map_buckets m))) ∧
    bkt_key_size nb = key_size mod 256 ∧
    bkt_key nb = take (Z.to_nat (key_size mod 256)) k ∧
    Z.of_nat (length (bkt_key nb)) = key_size mod 256 ∧
    Z.of_nat (length (bkt_key nb)) < key_size ∧
    Forall (differs k (Z.to_nat (key_size mod 256))) old.
Proof.
  intros Hlong Hadd.
  apply hashmap_add_true in Hadd
    as (index & old & nb & _ & Hlen & _ & Hold & Hdiff & -> & -> & _).
  eexists index, old, _. cbn [bkt_key bkt_key_size] in *. unfold uint8 in *.
  change (2 ^ 8) with 256 in *.
  pose proof (Z.mod_pos_bound key_size 256 eq_refl) as Hmod.
  repeat split; try done; cbn [bkt_key].
  - rewrite length_take. lia.
  - rewrite length_take. lia.
  - eapply Forall_impl; [exact Hdiff|]. intros it. unfold differs.
    by rewrite memcmp_take_r.
Qed.

(** C10, as the code behaves: on a map without clone function and with a
    free function, a [hashmap_add] with valid arguments whose allocations
    succeed and that returns [false] was rejected because an entry of
    the chain compared equal; the map is unchanged, and the free function
    has been called on the caller's value [v2] itself when [v2] is not
    [NULL], and has not been called when [v2] is [NULL]. *)
Theorem rejected_add_frees_callers_value m k key_size v2 free w w1 w2 map' w' :
  map_value_clone_function m = None →
  map_value_free_function m = Some free →
  key_size ≠ 0 →
  malloc w = (true, w1) → malloc w1 = (true, w2) →
  hashmap_add (Some m) (Some k) key_size v2 w = Val (false, map', w') →
  map' = Some m ∧
  w' = World (heap w2)
         (if bool_decide (v2 = 0) then env w else free v2 (env w)) ∧
  ∃ index pre it post,
    bucket_index m k key_size = Val index ∧
    map_buckets m !! Z.to_nat index = Some (pre ++ it :: post) ∧
    memcmp (bkt_key it) k (Z.to_nat (uint8 key_size)) = Val true.
Proof.
  intros Hclone Hfree Hks H1 H2 Hadd. unfold hashmap_add in Hadd.
  rewrite bool_decide_eq_false_2 in Hadd by done.
  inv_bind Hadd. destruct r as [[nb|] w3].
  - apply _hashbucket_new_Some in Hr
      as (w1' & w2' & H1' & H2' & _ & -> & ->).
    rewrite H1 in H1'. injection H1' as <-.
    rewrite H2 in H2'. injection H2' as <-.
    inv_bind Hadd as index Hindex. inv_bind Hadd as r Hins.
    destruct r as [[] m1]; [done|]. injection Hadd as <- <-.
    apply insert_at_false in Hins as (-> & pre & it & post & Hc & _ & Hit).
    cbn [bkt_key bkt_key_size] in Hit. rewrite memcmp_take_r in Hit.
    rewrite Hclone, Hfree. cbn.
    split; [done|]. split; [|by exists index, pre, it, post].
    f_equal. by repeat case_bool_decide.
  - unfold _hashbucket_new in Hr. rewrite H1 in Hr. cbn [negb] in Hr.
    rewrite H2 in Hr. cbn [negb] in Hr. inv_bind Hr.
    by destruct (map_value_clone_function m) as [cl|];
      [destruct (cl v2 (env w2))|].
Qed.

End Insertion.

(** ** Keys of at most 255 bytes: insertion, lookup and removal agree *)

Section RoundTrip.
Context {E : Type}.
Implicit Types (w : world E) (m : _hashmap_s E) (map : hashmap_t E).
Implicit Types (c old pre post : chain) (it nb : _hashbucket_s).
Implicit Types (k : list byte).

Lemma bucket_index_set_buckets m buckets k key_size :
  bucket_index (set_buckets m buckets) k key_size = bucket_index m k key_size.
Proof. done. Qed.

(** An index that selects a chain is below [bucketcount]. *)
Lemma index_in_range m index c :
  sized m → map_buckets m !! Z.to_nat index = Some c →
  ¬ map_bucketcount m ≤ index.
Proof. unfold sized. intros Hs Hc. apply lookup_lt_Some in Hc. lia. Qed.

Lemma memcmp_stored_key k n :
  (n ≤ length k)%nat → memcmp (take n k) k n = Val true.
Proof.
  intros Hn. apply memcmp_true. rewrite take_take, Nat.min_id, length_take.
  repeat split; lia.
Qed.

Lemma add_present m k key_size v w m' w' :
  sized m → 0 < key_size ≤ 255 →
  hashmap_add (Some m) (Some k) key_size v w = Val (true, Some m', w') →
  present k key_size
    (Bucket (take (Z.to_nat key_size) k) key_size
       (stored (map_value_clone_function m) v (env w)).1) m'.
Proof.
  intros Hs Hks Hadd.
  apply hashmap_add_true in Hadd
    as (index & old & nb & _ & Hlen & Hidx & Hold & Hdiff & -> & [= ->] & _).
  rewrite uint8_small in * by lia. cbn [bkt_key bkt_key_size] in Hdiff.
  split; [|split; [done|split; [done|]]].
  { unfold sized in *. cbn. by rewrite length_insert. }
  exists index, old, []. rewrite bucket_index_set_buckets. cbn [map_buckets].
  split; [done|]. split; [|split; [|done]].
  - apply list_lookup_insert_eq. by apply lookup_lt_Some in Hold.
  - eapply Forall_impl; [exact Hdiff|]. intros it. unfold differs.
    by rewrite memcmp_take_r.
Qed.

Lemma present_get m k key_size nb :
  0 < key_size → present k key_size nb m →
  hashmap_get (Some m) (Some k) key_size = Val (bkt_value nb).
Proof.
  intros Hks (Hs & Hlen & Hkey & index & pre & post & Hidx & Hc & Hpre & _).
  unfold hashmap_get. rewrite bool_decide_eq_false_2 by lia.
  rewrite Hidx. cbn [mbind result_bind].
  rewrite bool_decide_eq_false_2 by by eapply index_in_range.
  rewrite Hc, chain_find_match; [done..|].
  rewrite Hkey. apply memcmp_stored_key. lia.
Qed.


(** Unlinking another entry of a chain leaves the entry [nb] in it. *)
Lemma unlink_other (P : _hashbucket_s → Prop) pre nb post pre' it post' :
  pre ++ nb :: post = pre' ++ it :: post' →
  it ≠ nb → Forall P pre → Forall P post →
  ∃ pre1 post1, pre' ++ post' = pre1 ++ nb :: post1 ∧
    Forall P pre1 ∧ Forall P post1.
Proof.
  intros Heq Hne Hpre Hpost.
  apply app_eq_inv in Heq as [(mid & -> & Hmid)|(mid & -> & Hmid)].
  - destruct mid as [|x mid]; cbn in Hmid; injection Hmid as -> ->; [done|].
    apply Forall_app in Hpre as [? [_ ?]%Forall_cons].
    exists (pre' ++ mid), post. rewrite <- (assoc_L (++)).
    split; [done|]. split; [by apply Forall_app|done].
  - destruct mid as [|x mid]; cbn in Hmid; injection Hmid as <- ->; [done|].
    apply Forall_app in Hpost as [? [_ ?]%Forall_cons].
    exists pre, (mid ++ post'). rewrite <- (assoc_L (++)).
    split; [done|]. split; [done|by apply Forall_app].
Qed.

(** Every operation other than a removal the entry answers to leaves the
    entry in place, first in its chain among the entries that compare
    equal to the key. *)
Lemma step_present k key_size nb o m w b m' w' :
  present k key_size nb m → spares (bkt_key nb) o →
  step o (Some m) w = Val (b, Some m', w') →
  present k key_size nb m'.
Proof.
  intros Hp Hspares H. destruct b; cycle 1.
  { destruct o as [key ks v|key ks]; cbn [step] in H.
    - by apply hashmap_add_false in H as [= ->].
    - by apply hashmap_remove_false in H as [[= ->] _]. }
  destruct Hp
    as (Hs & Hlen & Hkey & index & pre & post & Hidx & Hc & Hpre & Hpost).
  pose proof (lookup_lt_Some _ _ _ Hc) as Hlt.
  destruct o as [[k2|] ks2 v|[k'|] ks']; cbn [step] in H; try done.
  - apply hashmap_add_true in H
      as (index2 & old2 & nb2 & _ & _ & _ & Hold & Hdiff & _ & [= ->] & _).
    split; [|split; [done|split; [done|]]].
    { unfold sized in *. cbn. by rewrite length_insert. }
    rewrite bucket_index_set_buckets. cbn [set_buckets map_buckets].
    destruct (decide (Z.to_nat index2 = Z.to_nat index)) as [Heq|Hne].
    + rewrite Heq in *. rewrite Hc in Hold. injection Hold as <-.
      exists index, pre, (post ++ [nb2]).
      rewrite list_lookup_insert_eq by done. rewrite <- (assoc_L (++)).
      split; [done|]. split; [done|]. split; [done|].
      apply Forall_app. split; [done|]. apply Forall_singleton.
      apply Forall_app in Hdiff as [_ [Hnb _]%Forall_cons].
      unfold differs in *. rewrite <- (memcmp_take_r _ _ k), <- Hkey.
      eapply memcmp_false_sym; [exact Hnb|].
      rewrite Hkey, length_take. lia.
    + exists index, pre, post. by rewrite list_lookup_insert_ne.
  - apply hashmap_remove_true in H
      as (hash & pre' & it & post' & _ & _ & Hc' & _ & Hit & [= ->] & _).
    split; [|split; [done|split; [done|]]].
    { unfold sized in *. cbn. by rewrite length_insert. }
    rewrite bucket_index_set_buckets. cbn [set_buckets map_buckets].
    destruct (decide (Z.to_nat hash = Z.to_nat index)) as [Heq|Hne].
    + rewrite Heq in *. rewrite Hc in Hc'. injection Hc' as Hc'.
      assert (Hne : it ≠ nb) by (by intros ->).
      destruct (unlink_other _ _ _ _ _ _ _ Hc' Hne Hpre Hpost)
        as (pre1 & post1 & -> & ? & ?).
      exists index, pre1, post1. by rewrite list_lookup_insert_eq.
    + exists index, pre, post. by rewrite list_lookup_insert_ne.
Qed.

Lemma run_present k key_size nb ops : ∀ m w m' w',
  present k key_size nb m → Forall (spares (bkt_key nb)) ops →
  run ops (Some m) w = Val (Some m', w') →
  present k key_size nb m'.
Proof.
  induction ops as [|o ops IH]; intros m w m' w' Hp Hops H; cbn in H.
  - by injection H as <- _.
  - inv_bind H. destruct r as [[b map1] w1].
    apply Forall_cons in Hops as [Ho Hops].
    destruct (step_Some _ _ _ _ _ _ Hr) as [m1 ->].
    eapply IH; [|done..]. by eapply step_present.
Qed.

Lemma insert_at_match m nb index pre it post :
  map_buckets m !! Z.to_nat index = Some (pre ++ it :: post) →
  Forall (differs (bkt_key nb) (Z.to_nat (bkt_key_size nb))) pre →
  memcmp (bkt_key it) (bkt_key nb) (Z.to_nat (bkt_key_size nb)) = Val true →
  _hashmap_hashbucket_insert_at m nb index = Val (false, m).
Proof.
  intros Hc Hpre Hit. unfold _hashmap_hashbucket_insert_at. rewrite Hc.
  pose proof (chain_append_match _ _ post _ Hpre Hit) as Happ.
  destruct pre; cbn in *; by rewrite Happ.
Qed.

(** An insertion that meets an entry comparing equal returns [false] and
    leaves the map as it is, whatever the allocator does. *)
Lemma hashmap_add_duplicate m k key_size v w index pre it post :
  key_size ≠ 0 → uint8 key_size ≤ Z.of_nat (length k) →
  bucket_index m k key_size = Val index →
  map_buckets m !! Z.to_nat index = Some (pre ++ it :: post) →
  Forall (differs k (Z.to_nat (uint8 key_size))) pre →
  memcmp (bkt_key it) k (Z.to_nat (uint8 key_size)) = Val true →
  ∃ w', hashmap_add (Some m) (Some k) key_size v w = Val (false, Some m, w').
Proof.
  intros Hks Hlen Hidx Hc Hpre Hit.
  unfold hashmap_add. rewrite bool_decide_eq_false_2 by done.
  destruct (_hashbucket_new k (uint8 key_size) v
              (map_value_clone_function m) w) as [[[nb|] w1]|] eqn:Hnew.
  - apply _hashbucket_new_Some in Hnew as (_ & _ & _ & _ & _ & Hnb & _).
    cbn [mbind result_bind]. rewrite Hidx. cbn [mbind result_bind].
    rewrite (insert_at_match _ _ _ pre it post); [cbn; eauto|done|..];
      rewrite Hnb; cbn [bkt_key bkt_key_size].
    + eapply Forall_impl; [exact Hpre|]. intros it'. unfold differs.
      by rewrite memcmp_take_r.
    + by rewrite memcmp_take_r.
  - cbn. eauto.
  - unfold _hashbucket_new, bytes_at in Hnew.
    rewrite bool_decide_eq_true_2 in Hnew by done.
    destruct (malloc w) as [[] w1]; cbn in Hnew; [|done].
    destruct (malloc w1) as [[] w2]; cbn in Hnew; [|done].
    by destruct (map_value_clone_function m) as [cl|];
      [destruct (cl v (env w2))|].
Qed.

(** X2: after a successful [hashmap_add] of a key of at most 255 bytes, a
    second [hashmap_add] of the same key returns [false] and leaves the
    map as it is, and [hashmap_get] returns the value stored first. *)
Lemma add_twice_rejected m k key_size v1 v2 w m1 w1 w2 :
  sized m → 0 < key_size ≤ 255 →
  hashmap_add (Some m) (Some k) key_size v1 w = Val (true, Some m1, w1) →
  (∃ w3, hashmap_add (Some m1) (Some k) key_size v2 w2
         = Val (false, Some m1, w3)) ∧
  hashmap_get (Some m1) (Some k) key_size
  = Val (stored (map_value_clone_function m) v1 (env w)).1.
Proof.
  intros Hs Hks Hadd. split.
  - destruct (add_present _ _ _ _ _ _ _ Hs Hks Hadd)
      as (_ & Hlen & Hkey & index & pre & post & Hidx & Hc & Hpre & _).
    cbn [bkt_key] in Hkey.
    eapply (hashmap_add_duplicate _ _ _ _ _ index pre _ post);
      rewrite ?uint8_small by lia; try done; [lia|].
    cbn [bkt_key]. apply memcmp_stored_key. lia.
  - erewrite present_get; [|lia|by eapply add_present]. done.
Qed.

(** X1: after a successful [hashmap_add] of a key of at most 255 bytes,
    [hashmap_get] returns the stored value for as long as no removal
    asks for bytes that the stored key starts with. *)
Lemma add_then_get m k key_size v w m1 w1 ops m2 w2 :
  sized m → 0 < key_size ≤ 255 →
  hashmap_add (Some m) (Some k) key_size v w = Val (true, Some m1, w1) →
  Forall (spares (take (Z.to_nat key_size) k)) ops →
  run ops (Some m1) w1 = Val (Some m2, w2) →
  hashmap_get (Some m2) (Some k) key_size
  = Val (stored (map_value_clone_function m) v (env w)).1.
Proof.
  intros Hs Hks Hadd Hops Hrun.
  pose proof (add_present _ _ _ _ _ _ _ Hs Hks Hadd) as Hp.
  pose proof (run_present _ _ _ _ _ _ _ _ Hp Hops Hrun) as Hp2.
  by rewrite (present_get _ _ _ _ (proj1 Hks) Hp2).
Qed.


End RoundTrip.

(** ** The operations on concrete inputs *)

Lemma sample_new_eq :
  hashmap_new 2 (Some byte_sum) None (Some record_call) (World [] [])
  = Val (Some sample_new, World [] []).
Proof. reflexivity. Qed.

Lemma sample_run_eq :
  run sample_ops (Some sample_new) (World [] [])
  = Val (Some sample_map, World [] [40; 20]).
Proof. reflexivity. Qed.

Section SingleBucket.
Context {E : Type}.
Implicit Types (hash : hash_fn) (e : E).

Lemma single_bucket_new hash e :
  hashmap_new 1 (Some hash) None None (World [] e)
  = Val (Some (single_bucket hash []), World [] e).
Proof. reflexivity. Qed.

(** With a [hashmask] of [0] every key has bucket index [0]. *)
Lemma bucket_index_mask_0 (m : _hashmap_s E) k key_size :
  map_hashmask m = 0 → key_size ≤ Z.of_nat (length k) →
  bucket_index m k key_size = Val 0.
Proof.
  intros Hm Hk. unfold bucket_index, bytes_at.
  rewrite bool_decide_eq_true_2 by done. cbn. by rewrite Hm, Z.land_0_r.
Qed.

(** Evaluates an operation on a [single_bucket] map. *)
Ltac eval_single :=
  unfold hashmap_add, hashmap_get, hashmap_remove;
  rewrite bucket_index_mask_0 by (cbn; done || lia);
  reflexivity.

(** C2, on a concrete input: after ["abc"] has been added, a lookup of
    the two-byte key ["ab"] returns the value stored for ["abc"], an
    entry whose key has another length; an insertion of ["ab"] is
    rejected as a duplicate of it. *)
Theorem lookup_matches_longer_stored_key hash e (v v2 : Z) :
  hashmap_add (Some (single_bucket hash [])) (Some key_abc) 3 v (World [] e)
  = Val (true, Some (single_bucket hash [Bucket key_abc 3 v]), World [] e) ∧
  hashmap_get (Some (single_bucket (E:=E) hash [Bucket key_abc 3 v]))
    (Some key_ab) 2 = Val v ∧
  hashmap_add (Some (single_bucket hash [Bucket key_abc 3 v]))
    (Some key_ab) 2 v2 (World [] e)
  = Val (false, Some (single_bucket hash [Bucket key_abc 3 v]), World [] e).
Proof. repeat split; eval_single. Qed.

(** C3, on a concrete input: a key of 257 bytes is added with the key
    length [1]; the second insertion is rejected, but the lookup of the
    key compares 257 bytes with the one byte stored, reads past the
    end of the stored key and is undefined: nothing makes it return the
    value of the first insertion. *)
Theorem long_key_lookup_after_rejected_add hash e (v1 v2 : Z) :
  hashmap_add (Some (single_bucket hash [])) (Some key_long) 257 v1
    (World [] e)
  = Val (true, Some (single_bucket hash [Bucket ["x"%byte] 1 v1]),
         World [] e) ∧
  hashmap_add (Some (single_bucket hash [Bucket ["x"%byte] 1 v1]))
    (Some key_long) 257 v2 (World [] e)
  = Val (false, Some (single_bucket hash [Bucket ["x"%byte] 1 v1]),
         World [] e) ∧
  hashmap_get (Some (single_bucket (E:=E) hash [Bucket ["x"%byte] 1 v1]))
    (Some key_long) 257 = UB.
Proof. repeat split; eval_single. Qed.

(** C4, on concrete inputs: the lookup of a key of 257 bytes right after
    its successful insertion is undefined instead of returning the
    value; and the value stored for ["abc"] is no longer returned after
    [hashmap_remove] was called for the other key ["ab"]. *)
Theorem lookup_after_add_fails hash e (v : Z) :
  (hashmap_add (Some (single_bucket hash [])) (Some key_long) 257 v
     (World [] e)
   = Val (true, Some (single_bucket hash [Bucket ["x"%byte] 1 v]),
          World [] e) ∧
   hashmap_get (Some (single_bucket (E:=E) hash [Bucket ["x"%byte] 1 v]))
     (Some key_long) 257 = UB) ∧
  (hashmap_add (Some (single_bucket hash [])) (Some key_abc) 3 v (World [] e)
   = Val (true, Some (single_bucket hash [Bucket key_abc 3 v]),
          World [] e) ∧
   hashmap_remove (Some (single_bucket hash [Bucket key_abc 3 v]))
     (Some key_ab) 2 (World [] e)
   = Val (true, Some (single_bucket hash []), World [] e) ∧
   hashmap_get (Some (single_bucket (E:=E) hash [])) (Some key_abc) 3
   = Val 0).
Proof. repeat split; eval_single. Qed.

(** C5, on concrete inputs: [hashmap_remove] of the key ["ab"], which is
    not in the map, returns [true] and removes the entry of ["abc"]; and
    [hashmap_remove] of a key of 257 bytes that is in the map is
    undefined instead of returning [true]. *)
Theorem remove_of_absent_key_succeeds hash e (v : Z) :
  (hashmap_remove (Some (single_bucket hash [Bucket key_abc 3 v]))
     (Some key_ab) 2 (World [] e)
   = Val (true, Some (single_bucket hash []), World [] e)) ∧
  (hashmap_add (Some (single_bucket hash [])) (Some key_long) 257 v
     (World [] e)
   = Val (true, Some (single_bucket hash [Bucket ["x"%byte] 1 v]),
          World [] e) ∧
   hashmap_remove (Some (single_bucket hash [Bucket ["x"%byte] 1 v]))
     (Some key_long) 257 (World [] e) = UB).
Proof. repeat split; eval_single. Qed.

End SingleBucket.

(** ** Instances *)

(** A request for 6 buckets, at the same distance from 4 and 8, gives 4
    buckets. *)
Lemma hashmap_new_bucketcount_nearest_witness :
  1 ≤ 6 < 2 ^ 30 ∧
  hashmap_new 6 (Some byte_sum) None None (World [] tt)
  = Val (Some (Hashmap 4 [[]; []; []; []] 3 byte_sum None None),
         World [] tt) ∧
  ((∃ s, 0 ≤ s ≤ 30 ∧ 4 = 2 ^ s) ∧
   (∀ j, 0 ≤ j → Z.abs (6 - 4) ≤ Z.abs (6 - 2 ^ j)) ∧
   (∀ j, 0 ≤ j → Z.abs (6 - 2 ^ j) = Z.abs (6 - 4) → 4 ≤ 2 ^ j) ∧
   3 = 4 - 1 ∧
   Z.of_nat (length [[]; []; []; [] : chain]) = 4).
Proof.
  split; [lia|]. split; [reflexivity|].
  apply (hashmap_new_bucketcount_nearest 6 byte_sum None None
           (World [] tt) (Hashmap 4 [[]; []; []; []] 3 byte_sum None None)
           (World [] tt)); [lia|reflexivity].
Defined.

(** A request for 3 buckets, at the same distance from 2 and 4, gives 2
    buckets and not 4: the tie is not rounded up. *)
Lemma hashmap_new_rounds_tie_down :
  ∃ m, hashmap_new 3 (Some byte_sum) None None (World [] tt)
       = Val (Some m, World [] tt) ∧
    map_bucketcount m = 2 ∧ map_bucketcount m ≠ 4 ∧
    Z.abs (3 - 2) = Z.abs (3 - 4).
Proof.
  exists (Hashmap 2 [[]; []] 1 byte_sum None None).
  split; [reflexivity|]. cbn [map_bucketcount]. lia.
Qed.

Lemma chains_have_unique_keys_witness :
  hashmap_new 2 (Some byte_sum) None (Some record_call) (World [] [])
  = Val (Some sample_new, World [] []) ∧
  run sample_ops (Some sample_new) (World [] [])
  = Val (Some sample_map, World [] [40; 20]) ∧
  Forall unique_keys (map_buckets sample_map).
Proof.
  split; [reflexivity|]. split; [reflexivity|].
  apply (chains_have_unique_keys 2 (Some byte_sum) None (Some record_call)
           (World [] []) sample_new (World [] []) sample_ops sample_map
           (World [] [40; 20])); reflexivity.
Defined.

(** The three entries of [sample_map] are visited in the order of
    [entries]; the values 10 and 50 of bucket 0 come before the value 30
    of bucket 1. *)
Lemma hashmap_apply_visits_entries_witness :
  hashmap_new 2 (Some byte_sum) None (Some record_call) (World [] [])
  = Val (Some sample_new, World [] []) ∧
  run sample_ops (Some sample_new) (World [] [])
  = Val (Some sample_map, World [] [40; 20]) ∧
  (hashmap_apply (Some sample_map) (Some record_call) (World [] [])
   = Val (World [] [10; 50; 30]) ∧
   length [10; 50; 30] = length (entries sample_map) ∧
   (∀ k key_size v w3 m' w4,
      hashmap_add (Some sample_map) (Some k) key_size v w3
      = Val (true, Some m', w4) →
      ∃ i old nb, map_buckets sample_map !! i = Some old ∧
        map_buckets m' = <[i := old ++ [nb]]> (map_buckets sample_map))).
Proof.
  split; [reflexivity|]. split; [reflexivity|].
  apply (hashmap_apply_visits_entries 2 (Some byte_sum) None
           (Some record_call) (World [] []) sample_new (World [] [])
           sample_ops sample_map (World [] [40; 20]) record_call
           (World [] [])); reflexivity.
Defined.

Lemma hashmap_add_truncates_key_witness :
  255 < 257 ∧
  hashmap_add (Some (single_bucket byte_sum [])) (Some key_long) 257 7
    (World [] tt)
  = Val (true, Some (single_bucket byte_sum [Bucket ["x"%byte] 1 7]),
         World [] tt) ∧
  ∃ index old nb,
    map_buckets (single_bucket (E:=unit) byte_sum []) !! Z.to_nat index
    = Some old ∧
    Some (single_bucket (E:=unit) byte_sum [Bucket ["x"%byte] 1 7])
    = Some (set_buckets (single_bucket byte_sum [])
              (<[Z.to_nat index := old ++ [nb]]>
                 (map_buckets (single_bucket (E:=unit) byte_sum [])))) ∧
    bkt_key_size nb = 257 mod 256 ∧
    bkt_key nb = take (Z.to_nat (257 mod 256)) key_long ∧
    Z.of_nat (length (bkt_key nb)) = 257 mod 256 ∧
    Z.of_nat (length (bkt_key nb)) < 257 ∧
    Forall (differs key_long (Z.to_nat (257 mod 256))) old.
Proof.
  split; [lia|]. split; [reflexivity|].
  apply (hashmap_add_truncates_key (single_bucket byte_sum []) key_long 257 7
           (World [] tt)
           (Some (single_bucket byte_sum [Bucket ["x"%byte] 1 7]))
           (World [] tt)); [lia|reflexivity].
Defined.

(** The value 40 of the rejected insertion is handed to the free
    function. *)
Lemma rejected_add_frees_callers_value_witness :
  map_value_clone_function sample_owner = None ∧
  map_value_free_function sample_owner = Some record_call ∧
  3 ≠ 0 ∧
  malloc (World [] ([] : list Z)) = (true, World [] []) ∧
  hashmap_add (Some sample_owner) (Some key_abc) 3 40 (World [] [])
  = Val (false, Some sample_owner, World [] [40]) ∧
  (Some sample_owner = Some sample_owner ∧
   World [] [40] = World [] (record_call 40 []) ∧
   ∃ index pre it post,
     bucket_index sample_owner key_abc 3 = Val index ∧
     map_buckets sample_owner !! Z.to_nat index = Some (pre ++ it :: post) ∧
     memcmp (bkt_key it) key_abc (Z.to_nat (uint8 3)) = Val true).
Proof.
  split; [reflexivity|]. split; [reflexivity|]. split; [lia|].
  split; [reflexivity|]. split; [reflexivity|].
  apply (rejected_add_frees_callers_value sample_owner key_abc 3 40
           record_call (World [] []) (World [] []) (World [] [])
           (Some sample_owner) (World [] [40]));
    (reflexivity || lia).
Defined.

(** When the value of a rejected insertion is [NULL], the free function
    is not called on it: the record of calls stays empty. *)
Lemma rejected_add_of_null_frees_nothing :
  hashmap_add (Some sample_owner) (Some key_abc) 3 0 (World [] [])
  = Val (false, Some sample_owner, World [] []) ∧
  World [] ([] : list Z) ≠ World [] (record_call 0 []).
Proof. split; [reflexivity|]. discriminate. Qed.

(** * Further properties of the operations *)

(** ** Construction and the shape of the map *)

Lemma highest_bit_Some fuel : ∀ count shifts s,
  1 ≤ count → 0 ≤ shifts → shifts + Z.of_nat fuel < 256 →
  highest_bit fuel count shifts = Some s → s = shifts + Z.log2 count.
Proof.
  induction fuel as [|fuel IH]; intros count shifts s Hc Hs Hb;
    cbn [highest_bit]; case_bool_decide as Hgt; try done.
  - intros [= <-]. assert (count = 1) as -> by lia. cbn. lia.
  - assert (H1 : 1 ≤ Z.log2 count) by (apply Z.log2_le_pow2; lia).
    rewrite uint8_small by lia. intros H. apply IH in H; [|try lia..].
    + rewrite Z.log2_shiftr in H by lia. lia.
    + rewrite Z.shiftr_div_pow2 by lia. change (2 ^ 1) with 2.
      apply Z.div_le_lower_bound; lia.
  - intros [= <-]. assert (count = 1) as -> by lia. cbn. lia.
Qed.

(** The sizing is defined for requests below [2^30] only. *)
Lemma bucket_shifts_range c s :
  1 ≤ c → bucket_shifts c = Val s → c < 2 ^ 30.
Proof.
  intros Hc. unfold bucket_shifts.
  destruct (highest_bit 32 c 0) as [z|] eqn:Hz; [|done].
  apply highest_bit_Some in Hz; [|lia..]. subst z. rewrite Z.add_0_l.
  intros H. inv_bind H as hi Hhi. unfold shl_int in Hhi.
  case_bool_decide as Hle; [|done]. apply Z.log2_lt_pow2; lia.
Qed.

Section Shape.
Context {E : Type}.
Implicit Types (w : world E) (m : _hashmap_s E) (map : hashmap_t E).
Implicit Types (k : list byte) (key : option (list byte)).

Lemma hashmap_new_Some bucketcount hash clone free w m w' :
  hashmap_new bucketcount hash clone free w = Val (Some m, w') →
  1 ≤ bucketcount < 2 ^ 30 ∧ ∃ h, hash = Some h.
Proof.
  unfold hashmap_new. case_bool_decide as Hc; [done|].
  destruct hash as [h|]; [|done].
  destruct (malloc w) as [[] w1]; cbn [negb]; [|done].
  intros H. inv_bind H as s Hs.
  split; [|by eauto]. split; [lia|]. eapply bucket_shifts_range; [lia|done].
Qed.

Lemma hashmap_new_well_formed bucketcount hash clone free w m w' :
  hashmap_new bucketcount hash clone free w = Val (Some m, w') →
  well_formed m.
Proof.
  intros Hnew.
  destruct (hashmap_new_Some _ _ _ _ _ _ _ Hnew) as [Hc [h ->]].
  destruct (hashmap_new_inv _ _ _ _ _ _ _ Hc Hnew) as (s & _ & Hs & ->).
  split.
  - unfold sized. cbn. by rewrite length_replicate.
  - exists s. cbn. repeat split; [lia|done..].
Qed.

(** An operation replaces the chains and nothing else. *)
Lemma step_set_buckets o m w b m' w' :
  step o (Some m) w = Val (b, Some m', w') →
  ∃ buckets, m' = set_buckets m buckets ∧
    length buckets = length (map_buckets m).
Proof.
  intros H. destruct b; cycle 1.
  { exists (map_buckets m). split; [|done].
    destruct o as [key ks v|key ks]; cbn [step] in H.
    - apply hashmap_add_false in H as [= ->]. by destruct m.
    - apply hashmap_remove_false in H as [[= ->] _]. by destruct m. }
  destruct o as [[k|] ks v|[k|] ks]; cbn [step] in H; try done.
  - apply hashmap_add_true in H
      as (? & ? & ? & _ & _ & _ & _ & _ & _ & [= ->] & _).
    eexists. split; [done|]. by rewrite length_insert.
  - apply hashmap_remove_true in H
      as (? & ? & ? & ? & _ & _ & _ & _ & _ & [= ->] & _).
    eexists. split; [done|]. by rewrite length_insert.
Qed.

Lemma step_well_formed o m w b m' w' :
  well_formed m → step o (Some m) w = Val (b, Some m', w') → well_formed m'.
Proof.
  intros [Hs Hpow] H. apply step_set_buckets in H as (bs & -> & Hlen).
  split; [|done]. unfold sized in *. cbn. congruence.
Qed.

Lemma run_well_formed bucketcount hash clone free w0 m0 w1 ops m w :
  hashmap_new bucketcount hash clone free w0 = Val (Some m0, w1) →
  run ops (Some m0) w1 = Val (Some m, w) →
  well_formed m.
Proof.
  intros Hnew Hrun.
  eapply (run_preserves well_formed); [apply step_well_formed| |done].
  by eapply hashmap_new_well_formed.
Qed.

(** On a well-formed map the masked hash selects one of the chains. *)
Lemma well_formed_index m k key_size i :
  well_formed m → bucket_index m k key_size = Val i →
  0 ≤ i < map_bucketcount m ∧ is_Some (map_buckets m !! Z.to_nat i).
Proof.
  intros [Hs (s & Hs0 & Hcount & Hmask)] Hi. unfold bucket_index in Hi.
  inv_bind Hi as bytes Hbytes. injection Hi as <-.
  rewrite Hmask.
  replace (2 ^ s - 1) with (Z.ones s) by (rewrite Z.ones_equiv; lia).
  rewrite Z.land_ones by done.
  assert (Hr : 0 ≤ uint32 (map_hash_function m bytes) mod 2 ^ s < 2 ^ s).
  { apply Z.mod_pos_bound. by apply Z.pow_pos_nonneg. }
  split; [lia|]. apply lookup_lt_is_Some. unfold sized in Hs. lia.
Qed.

(** X4: on a map made by [hashmap_new] and any sequence of adds and
    removes, the bucket index computed for a key is at least [0] and
    below [bucketcount], and the array has a chain at that index: the
    operations never reach outside the bucket array. *)
Theorem bucket_index_in_range
    bucketcount hash clone free w0 m0 w1 ops m w k key_size i :
  hashmap_new bucketcount hash clone free w0 = Val (Some m0, w1) →
  run ops (Some m0) w1 = Val (Some m, w) →
  bucket_index m k key_size = Val i →
  0 ≤ i < map_bucketcount m ∧ is_Some (map_buckets m !! Z.to_nat i).
Proof.
  intros Hnew Hrun. apply well_formed_index. by eapply run_well_formed.
Qed.

(** X5: no sequence of adds and removes changes the number of buckets,
    the mask, or the hash, clone and free functions the map was made
    with: the capacity is fixed and nothing is rehashed. *)
Theorem run_keeps_configuration ops m w m' w' :
  run ops (Some m) w = Val (Some m', w') →
  map_bucketcount m' = map_bucketcount m ∧
  map_hashmask m' = map_hashmask m ∧
  length (map_buckets m') = length (map_buckets m) ∧
  map_hash_function m' = map_hash_function m ∧
  map_value_clone_function m' = map_value_clone_function m ∧
  map_value_free_function m' = map_value_free_function m.
Proof.
  apply (run_preserves (λ m',
    map_bucketcount m' = map_bucketcount m ∧
    map_hashmask m' = map_hashmask m ∧
    length (map_buckets m') = length (map_buckets m) ∧
    map_hash_function m' = map_hash_function m ∧
    map_value_clone_function m' = map_value_clone_function m ∧
    map_value_free_function m' = map_value_free_function m)); [|done].
  intros o m1 w1 b m2 w2 (H1 & H2 & H3 & H4 & H5 & H6) H.
  apply step_set_buckets in H as (bs & -> & Hlen). cbn.
  repeat split; congruence.
Qed.

(** X6: for a request of at least 1 and below [2^30] buckets,
    [hashmap_new] is defined and calls none of the caller's functions;
    it returns a map exactly when a hash function is given and both of
    its allocations succeed, and [NULL] otherwise. For a request below 1
    it returns [NULL] without allocating. *)
Theorem hashmap_new_outcome bucketcount hash clone free w :
  bucketcount < 2 ^ 30 →
  ∃ r w', hashmap_new bucketcount hash clone free w = Val (r, w') ∧
    env w' = env w ∧
    (bucketcount < 1 → r = None ∧ w' = w) ∧
    (is_Some r ↔
       1 ≤ bucketcount ∧ is_Some hash ∧
       (malloc w).1 = true ∧ (malloc (malloc w).2).1 = true).
Proof.
  intros Hc. unfold hashmap_new. case_bool_decide as Hlow.
  { exists None, w. split; [done|]. split; [done|]. split; [done|].
    split; [by intros []%is_Some_None|]. intros (? & _). lia. }
  destruct hash as [h|]; cycle 1.
  { exists None, w. split; [done|]. split; [done|]. split; [lia|].
    split; [by intros []%is_Some_None|]. by intros (_ & []%is_Some_None & _). }
  destruct (malloc w) as [ok1 w1] eqn:H1. cbn [fst snd].
  pose proof (malloc_env _ _ _ H1) as He1.
  destruct ok1; cbn [negb]; cycle 1.
  { exists None, w1. split; [done|]. split; [done|]. split; [lia|].
    split; [by intros []%is_Some_None|]. by intros (_ & _ & ? & _). }
  rewrite bucket_shifts_spec by lia. cbn [mbind result_bind].
  destruct (malloc w1) as [ok2 w2] eqn:H2. cbn [fst snd].
  pose proof (malloc_env _ _ _ H2) as He2.
  destruct ok2; cbn [negb].
  - eexists (Some _), w2. split; [done|]. split; [congruence|].
    split; [lia|]. split; [|by eauto]. intros _. repeat split; [lia|by eauto].
  - exists None, w2. split; [done|]. split; [congruence|]. split; [lia|].
    split; [by intros []%is_Some_None|]. by intros (_ & _ & _ & ?).
Qed.

Lemma hashmap_add_no_memory map key key_size v w :
  (malloc w).1 = false ∨ (malloc (malloc w).2).1 = false →
  ∃ w', hashmap_add map key key_size v w = Val (false, map, w') ∧
    env w' = env w.
Proof.
  intros Hfail. unfold hashmap_add.
  destruct map as [m|], key as [k|]; try by exists w.
  case_bool_decide as Hks; [by exists w|]. unfold _hashbucket_new.
  destruct (malloc w) as [ok1 w1] eqn:H1. cbn [fst snd] in Hfail.
  pose proof (malloc_env _ _ _ H1) as He1.
  destruct ok1; cbn [negb mbind result_bind]; [|by exists w1].
  destruct (malloc w1) as [ok2 w2] eqn:H2. cbn [fst snd] in Hfail.
  pose proof (malloc_env _ _ _ H2) as He2.
  destruct ok2; cbn [negb mbind result_bind]; [by destruct Hfail|].
  exists w2. split; [done|congruence].
Qed.

(** X7: when one of the two allocations of [hashmap_add] fails, it
    returns [false], the map is as before, and the caller's state is
    untouched: the clone function has not been called and nothing has
    been freed. *)
Theorem hashmap_add_without_memory map key key_size v w :
  (malloc w).1 = false ∨ (malloc (malloc w).2).1 = false →
  ∃ w', hashmap_add map key key_size v w = Val (false, map, w') ∧
    env w' = env w.
Proof. apply hashmap_add_no_memory. Qed.

(** X8: a map just returned by [hashmap_new] has no entries: every
    lookup returns [NULL] and every removal returns [false] and leaves
    the map as it is, for every key whose buffer holds [key_size]
    bytes. *)
Theorem hashmap_new_is_empty bucketcount hash clone free w m w' k key_size :
  hashmap_new bucketcount hash clone free w = Val (Some m, w') →
  key_size ≤ Z.of_nat (length k) →
  entries m = [] ∧
  hashmap_get (Some m) (Some k) key_size = Val 0 ∧
  ∀ w2, hashmap_remove (Some m) (Some k) key_size w2
        = Val (false, Some m, w2).
Proof.
  intros Hnew Hlen.
  pose proof (hashmap_new_well_formed _ _ _ _ _ _ _ Hnew) as Hwf.
  pose proof (hashmap_new_buckets _ _ _ _ _ _ _ Hnew) as Hb.
  assert (Hidx : ∃ i, bucket_index m k key_size = Val i).
  { unfold bucket_index, bytes_at. rewrite bool_decide_eq_true_2 by done.
    by eexists. }
  destruct Hidx as [i Hi].
  destruct (well_formed_index _ _ _ _ Hwf Hi) as [Hrange [c Hc]].
  assert (c = []) as ->.
  { rewrite Hb in Hc. by apply lookup_replicate in Hc as [-> _]. }
  split; [|split; [|intros w2]].
  - unfold entries. rewrite Hb. generalize (Z.to_nat (map_bucketcount m)).
    intros n. by induction n.
  - unfold hashmap_get. case_bool_decide; [done|]. rewrite Hi.
    cbn [mbind result_bind]. rewrite bool_decide_eq_false_2 by lia.
    by rewrite Hc.
  - unfold hashmap_remove. case_bool_decide; [done|]. rewrite Hi.
    cbn [mbind result_bind]. rewrite bool_decide_eq_false_2 by lia.
    by rewrite Hc.
Qed.

End Shape.

(** ** Entries come and go one at a time *)

Section Entries.
Context {E : Type}.
Implicit Types (w : world E) (m : _hashmap_s E) (map : hashmap_t E).
Implicit Types (c old pre post : chain) (it nb : _hashbucket_s).

(** Replacing one chain of the array replaces its part of [concat]. *)
Lemma concat_insert_perm (l : list chain) i c c' :
  l !! i = Some c → concat (<[i := c']> l) ++ c ≡ₚ concat l ++ c'.
Proof.
  intros Hc. pose proof (lookup_lt_Some _ _ _ Hc) as Hlt.
  rewrite insert_take_drop by done.
  rewrite <- (take_drop_middle l i c Hc) at 3.
  rewrite !concat_app. cbn [concat].
  rewrite <- !(assoc_L (++)).
  apply Permutation_app_head.
  etrans; [apply Permutation_app_comm|].
  rewrite (assoc_L (++) c). apply Permutation_app_tail.
  apply Permutation_app_comm.
Qed.

Lemma entries_append m i old nb :
  map_buckets m !! i = Some old →
  entries (set_buckets m (<[i := old ++ [nb]]> (map_buckets m)))
  ≡ₚ entries m ++ [nb].
Proof.
  intros Hc. unfold entries. cbn [set_buckets map_buckets].
  apply (Permutation_app_inv_r old).
  rewrite (concat_insert_perm _ _ _ (old ++ [nb]) Hc).
  rewrite <- !(assoc_L (++)). apply Permutation_app_head.
  apply Permutation_app_comm.
Qed.

Lemma entries_unlink m i pre it post :
  map_buckets m !! i = Some (pre ++ it :: post) →
  entries m
  ≡ₚ it :: entries (set_buckets m (<[i := pre ++ post]> (map_buckets m))).
Proof.
  intros Hc. unfold entries. cbn [set_buckets map_buckets].
  apply (Permutation_app_inv_r (pre ++ post)).
  rewrite <- (concat_insert_perm _ _ _ (pre ++ post) Hc).
  cbn. by rewrite <- !Permutation_middle.
Qed.

(** X9: a [hashmap_add] that returns [true] has linked exactly one new
    entry behind the last entry of one chain, a [hashmap_remove] that
    returns [true] has unlinked exactly one entry of one chain; all other
    chains are as before and the number of entries has changed by one.
    An operation that returns [false] leaves the map as it was. *)
Theorem step_changes_one_entry o m w b m' w' :
  step o (Some m) w = Val (b, Some m', w') →
  match o, b with
  | OpAdd _ _ _, true =>
      ∃ i old nb, map_buckets m !! i = Some old ∧
        map_buckets m' = <[i := old ++ [nb]]> (map_buckets m) ∧
        length (entries m') = S (length (entries m))
  | OpRemove _ _, true =>
      ∃ i pre it post, map_buckets m !! i = Some (pre ++ it :: post) ∧
        map_buckets m' = <[i := pre ++ post]> (map_buckets m) ∧
        S (length (entries m')) = length (entries m)
  | _, false => m' = m
  end.
Proof.
  intros H. destruct b; cycle 1.
  { destruct o as [key ks v|key ks]; cbn [step] in H.
    - by apply hashmap_add_false in H as [= ->].
    - by apply hashmap_remove_false in H as [[= ->] _]. }
  destruct o as [[k|] ks v|[k|] ks]; cbn [step] in H; try done.
  - apply hashmap_add_true in H
      as (index & old & nb & _ & _ & _ & Hold & _ & _ & [= ->] & _).
    exists (Z.to_nat index), old, nb. split; [done|]. split; [done|].
    rewrite (entries_append _ _ _ _ Hold), length_app. cbn. lia.
  - apply hashmap_remove_true in H
      as (hash & pre & it & post & _ & _ & Hc & _ & _ & [= ->] & _).
    exists (Z.to_nat hash), pre, it, post. split; [done|]. split; [done|].
    by rewrite (entries_unlink _ _ _ _ _ Hc).
Qed.

(** X10: a result of [hashmap_get] that is not [NULL] is the value of an
    entry in the chain of the key's bucket: the first entry of that chain
    whose first [key_size] bytes are the [key_size] bytes of the key. *)
Theorem hashmap_get_finds_first_match m k key_size v :
  hashmap_get (Some m) (Some k) key_size = Val v → v ≠ 0 →
  ∃ i pre it post,
    bucket_index m k key_size = Val i ∧
    map_buckets m !! Z.to_nat i = Some (pre ++ it :: post) ∧
    bkt_value it = v ∧
    take (Z.to_nat key_size) (bkt_key it) = take (Z.to_nat key_size) k ∧
    Forall (differs k (Z.to_nat key_size)) pre.
Proof.
  unfold hashmap_get. case_bool_decide as Hks; [by intros [= <-]|].
  intros H Hv. inv_bind H as i Hi.
  case_bool_decide as Hge; [by injection H as <-|].
  destruct (map_buckets m !! Z.to_nat i) as [c|] eqn:Hc; [|done].
  inv_bind H as r Hfind. destruct r as [it|]; [|by injection H as <-].
  injection H as <-.
  apply chain_find_Some in Hfind as (pre & post & -> & Hpre & Hit).
  apply memcmp_true in Hit as (Heq & _ & _).
  by exists i, pre, it, post.
Qed.

(** X18: a [hashmap_remove] that returns [true] has unlinked the first
    entry of the chain of the key's bucket whose first [key_size] bytes
    are the [key_size] bytes of the key, and has called the free
    function, when the map has one, once on the value of that entry when
    it is not [NULL], and on nothing else. *)
Theorem hashmap_remove_unlinks_first_match m k key_size w m' w' :
  hashmap_remove (Some m) (Some k) key_size w = Val (true, Some m', w') →
  ∃ i pre it post,
    bucket_index m k key_size = Val i ∧
    map_buckets m !! Z.to_nat i = Some (pre ++ it :: post) ∧
    take (Z.to_nat key_size) (bkt_key it) = take (Z.to_nat key_size) k ∧
    Forall (differs k (Z.to_nat key_size)) pre ∧
    map_buckets m' = <[Z.to_nat i := pre ++ post]> (map_buckets m) ∧
    w' = World (heap w)
           match map_value_free_function m with
           | Some free =>
               if bool_decide (bkt_value it = 0) then env w
               else free (bkt_value it) (env w)
           | None => env w
           end.
Proof.
  intros H. apply hashmap_remove_true in H
    as (i & pre & it & post & _ & Hi & Hc & Hpre & Hit & [= ->] & ->).
  apply memcmp_true in Hit as (Heq & _ & _).
  exists i, pre, it, post. repeat split; try done.
  unfold _hashbucket_free. destruct (map_value_free_function m); [|done].
  by repeat case_bool_decide.
Qed.

(** [_hashbucket_free_all] frees the values that are not [NULL], in
    chain order. *)
Lemma _hashbucket_free_all_foldl (free : free_fn E) c (e : E) :
  _hashbucket_free_all c (Some free) e
  = foldl (λ e v, free v e) e (non_null (bkt_value <$> c)).
Proof.
  revert e. induction c as [|it c IH]; intros e; [done|].
  cbn [_hashbucket_free_all _hashbucket_free]. rewrite IH.
  unfold non_null. rewrite fmap_cons, filter_cons.
  case_bool_decide; by case_decide.
Qed.

Lemma _hashbucket_free_all_None c (e : E) :
  _hashbucket_free_all c None e = e.
Proof. revert e. induction c as [|it c IH]; intros e; [done|apply IH]. Qed.

Lemma non_null_app vs1 vs2 :
  non_null (vs1 ++ vs2) = non_null vs1 ++ non_null vs2.
Proof. apply filter_app. Qed.

Lemma hashmap_destroy_sized m w :
  sized m →
  hashmap_destroy (Some m) w
  = Val (World (heap w)
           match map_value_free_function m with
           | Some free =>
               foldl (λ e v, free v e) (env w)
                 (non_null (bkt_value <$> entries m))
           | None => env w
           end).
Proof.
  unfold sized. intros Hsized. unfold hashmap_destroy, entries.
  rewrite for_buckets_foldl by (cbn; lia).
  change (Z.to_nat 0) with O. rewrite drop_0.
  cbn [mbind result_bind]. do 2 f_equal.
  generalize (env w). generalize (map_buckets m).
  destruct (map_value_free_function m) as [free|].
  - induction l as [|c l IH]; intros e; cbn; [done|].
    rewrite IH, fmap_app, non_null_app, foldl_app.
    by rewrite _hashbucket_free_all_foldl.
  - induction l as [|c l IH]; intros e; cbn; [done|].
    by rewrite _hashbucket_free_all_None.
Qed.

(** X11: [hashmap_destroy] of a map made by [hashmap_new] and any sequence
    of adds and removes calls the free function once on the value of
    each entry whose value is not [NULL], bucket index ascending and
    chain order within a bucket, and on nothing else; without a free
    function the caller's state is untouched. *)
Theorem hashmap_destroy_frees_entries
    bucketcount hash clone free w0 m0 w1 ops m w2 w :
  hashmap_new bucketcount hash clone free w0 = Val (Some m0, w1) →
  run ops (Some m0) w1 = Val (Some m, w2) →
  hashmap_destroy (Some m) w
  = Val (World (heap w)
           match map_value_free_function m with
           | Some free =>
               foldl (λ e v, free v e) (env w)
                 (non_null (bkt_value <$> entries m))
           | None => env w
           end).
Proof. intros Hnew Hrun. apply hashmap_destroy_sized. by eapply run_sized. Qed.

End Entries.

(** ** Keys of one fixed length *)

(** Within the bounds of both buffers [memcmp] has a result. *)
Lemma memcmp_defined n : ∀ a b,
  (n ≤ length a)%nat → (n ≤ length b)%nat → ∃ r, memcmp a b n = Val r.
Proof.
  induction n as [|n IH]; intros a b Ha Hb; [by eexists|].
  destruct a as [|x a], b as [|y b]; cbn in *; try lia.
  destruct (Byte.eqb x y); [apply IH; lia|by eexists].
Qed.

(** A stored key of [n] bytes compares equal to the [n] bytes at [k]
    exactly when it consists of these bytes. *)
Lemma fixed_key_equal it k n :
  length (bkt_key it) = n → (n ≤ length k)%nat →
  bkt_key it = take n k → memcmp (bkt_key it) k n = Val true.
Proof.
  intros Hit Hk Heq. apply memcmp_true. rewrite (take_ge (bkt_key it)) by lia.
  split; [done|lia].
Qed.

Lemma fixed_key_differs it k n :
  length (bkt_key it) = n → (n ≤ length k)%nat →
  bkt_key it ≠ take n k → differs k n it.
Proof.
  intros Hit Hk Hne. unfold differs.
  destruct (memcmp_defined n (bkt_key it) k) as [[] Hr]; [lia|done| |done].
  apply memcmp_true in Hr as (Heq & _ & _).
  rewrite (take_ge (bkt_key it)) in Heq by lia. done.
Qed.

(** Either some entry of the chain has the key [kb], and the first such
    entry splits the chain, or none has. *)
Lemma chain_split_key (c : chain) (kb : list byte) :
  (∃ pre it post, c = pre ++ it :: post ∧
     Forall (λ x, bkt_key x ≠ kb) pre ∧ bkt_key it = kb) ∨
  Forall (λ x, bkt_key x ≠ kb) c.
Proof.
  induction c as [|x c IH]; [by right|].
  destruct (decide (bkt_key x = kb)) as [Heq|Hne].
  - left. by exists [], x, c.
  - destruct IH as [(pre & it & post & -> & Hpre & Hit)|Hall].
    + left. exists (x :: pre), it, post. split; [done|]. split; [|done].
      by constructor.
    + right. by constructor.
Qed.

Section Outcomes.
Context {E : Type}.
Implicit Types (w : world E) (m : _hashmap_s E) (map : hashmap_t E).
Implicit Types (c old pre post : chain) (it nb : _hashbucket_s).
Implicit Types (k : list byte).

Lemma hashmap_get_match m k key_size i pre it post :
  sized m → key_size ≠ 0 →
  bucket_index m k key_size = Val i →
  map_buckets m !! Z.to_nat i = Some (pre ++ it :: post) →
  Forall (differs k (Z.to_nat key_size)) pre →
  memcmp (bkt_key it) k (Z.to_nat key_size) = Val true →
  hashmap_get (Some m) (Some k) key_size = Val (bkt_value it).
Proof.
  intros Hs Hks Hi Hc Hpre Hit. unfold hashmap_get.
  rewrite bool_decide_eq_false_2 by done. rewrite Hi. cbn [mbind result_bind].
  rewrite bool_decide_eq_false_2 by by eapply index_in_range.
  by rewrite Hc, chain_find_match.
Qed.

Lemma hashmap_get_absent m k key_size i c :
  sized m → key_size ≠ 0 →
  bucket_index m k key_size = Val i →
  map_buckets m !! Z.to_nat i = Some c →
  Forall (differs k (Z.to_nat key_size)) c →
  hashmap_get (Some m) (Some k) key_size = Val 0.
Proof.
  intros Hs Hks Hi Hc Hall. unfold hashmap_get.
  rewrite bool_decide_eq_false_2 by done. rewrite Hi. cbn [mbind result_bind].
  rewrite bool_decide_eq_false_2 by by eapply index_in_range.
  by rewrite Hc, chain_find_differs.
Qed.

Lemma hashmap_remove_match m k key_size w i pre it post :
  sized m → key_size ≠ 0 →
  bucket_index m k key_size = Val i →
  map_buckets m !! Z.to_nat i = Some (pre ++ it :: post) →
  Forall (differs k (Z.to_nat key_size)) pre →
  memcmp (bkt_key it) k (Z.to_nat key_size) = Val true →
  hashmap_remove (Some m) (Some k) key_size w
  = Val (true,
         Some (set_buckets m (<[Z.to_nat i := pre ++ post]> (map_buckets m))),
         World (heap w)
           (_hashbucket_free it (map_value_free_function m) (env w))).
Proof.
  intros Hs Hks Hi Hc Hpre Hit. unfold hashmap_remove.
  rewrite bool_decide_eq_false_2 by done. rewrite Hi. cbn [mbind result_bind].
  rewrite bool_decide_eq_false_2 by by eapply index_in_range.
  by rewrite Hc, chain_unlink_match.
Qed.

Lemma hashmap_remove_absent m k key_size w i c :
  sized m → key_size ≠ 0 →
  bucket_index m k key_size = Val i →
  map_buckets m !! Z.to_nat i = Some c →
  Forall (differs k (Z.to_nat key_size)) c →
  hashmap_remove (Some m) (Some k) key_size w = Val (false, Some m, w).
Proof.
  intros Hs Hks Hi Hc Hall. unfold hashmap_remove.
  rewrite bool_decide_eq_false_2 by done. rewrite Hi. cbn [mbind result_bind].
  rewrite bool_decide_eq_false_2 by by eapply index_in_range.
  by rewrite Hc, chain_unlink_differs.
Qed.

Lemma insert_at_differs m nb i c :
  map_buckets m !! Z.to_nat i = Some c →
  Forall (differs (bkt_key nb) (Z.to_nat (bkt_key_size nb))) c →
  _hashmap_hashbucket_insert_at m nb i
  = Val (true,
         set_buckets m (<[Z.to_nat i := c ++ [nb]]> (map_buckets m))).
Proof.
  intros Hc Hall. unfold _hashmap_hashbucket_insert_at. rewrite Hc.
  pose proof (chain_append_differs _ _ Hall) as Happ.
  destruct c; [done|]. by rewrite Happ.
Qed.

(** An insertion that meets no entry comparing equal, with memory for
    the entry, links the entry behind the chain. *)
Lemma hashmap_add_fresh m k key_size v w w1 w2 i c :
  key_size ≠ 0 → uint8 key_size ≤ Z.of_nat (length k) →
  key_size ≤ Z.of_nat (length k) →
  malloc w = (true, w1) → malloc w1 = (true, w2) →
  bucket_index m k key_size = Val i →
  map_buckets m !! Z.to_nat i = Some c →
  Forall (differs k (Z.to_nat (uint8 key_size))) c →
  hashmap_add (Some m) (Some k) key_size v w
  = Val (true,
         Some (set_buckets m
                 (<[Z.to_nat i :=
                      c ++ [Bucket (take (Z.to_nat (uint8 key_size)) k)
                              (uint8 key_size)
                              (stored (map_value_clone_function m) v
                                 (env w)).1]]>
                    (map_buckets m))),
         World (heap w2) (stored (map_value_clone_function m) v (env w)).2).
Proof.
  intros Hks Hlen8 Hlen H1 H2 Hi Hc Hall.
  assert (He : env w2 = env w).
  { rewrite (malloc_env _ _ _ H2). apply (malloc_env _ _ _ H1). }
  assert (Hnew : _hashbucket_new k (uint8 key_size) v
                   (map_value_clone_function m) w
                 = Val (Some (Bucket (take (Z.to_nat (uint8 key_size)) k)
                                (uint8 key_size)
                                (stored (map_value_clone_function m) v
                                   (env w)).1),
                        World (heap w2)
                          (stored (map_value_clone_function m) v (env w)).2)).
  { unfold _hashbucket_new, bytes_at. rewrite H1. cbn [negb]. rewrite H2.
    cbn [negb]. rewrite bool_decide_eq_true_2 by done.
    cbn [mbind result_bind]. rewrite He.
    destruct (map_value_clone_function m) as [cl|]; cbn [stored].
    - by destruct (cl v (env w)).
    - rewrite <- He. by destruct w2. }
  unfold hashmap_add. rewrite bool_decide_eq_false_2 by done.
  rewrite Hnew. cbn [mbind result_bind]. rewrite Hi. cbn [mbind result_bind].
  rewrite (insert_at_differs _ _ _ c); [done..|].
  cbn [bkt_key bkt_key_size].
  eapply Forall_impl; [exact Hall|]. intros it. unfold differs.
  by rewrite memcmp_take_r.
Qed.

End Outcomes.

Section Dictionary.
Context {E : Type}.
Implicit Types (w : world E) (m : _hashmap_s E) (map : hashmap_t E).
Implicit Types (c old pre post : chain) (it nb : _hashbucket_s).
Implicit Types (k : list byte).

Lemma elem_of_entries m it :
  it ∈ entries m ↔ ∃ i c, map_buckets m !! i = Some c ∧ it ∈ c.
Proof.
  unfold entries. generalize (map_buckets m). intros l. split.
  - induction l as [|c l IH]; cbn; [by intros ?%elem_of_nil|].
    intros [Hc|Hl]%elem_of_app.
    + by exists O, c.
    + destruct (IH Hl) as (i & c' & ? & ?). by exists (S i), c'.
  - intros (i & c & Hc & Hit). revert i Hc.
    induction l as [|c' l IH]; intros [|i] Hc; cbn in *; try done.
    + injection Hc as ->. apply elem_of_app. by left.
    + apply elem_of_app. right. by eapply IH.
Qed.

Lemma bucket_index_defined m k key_size :
  key_size ≤ Z.of_nat (length k) →
  bucket_index m k key_size
  = Val (Z.land (uint32 (map_hash_function m (take (Z.to_nat key_size) k)))
           (map_hashmask m)).
Proof.
  intros Hlen. unfold bucket_index, bytes_at.
  by rewrite bool_decide_eq_true_2 by done.
Qed.

Lemma distinct_keys_append old nb n :
  NoDup (bkt_key <$> old) →
  Forall (differs (bkt_key nb) n) old →
  NoDup (bkt_key <$> old ++ [nb]).
Proof.
  intros Hold Hdiff. rewrite fmap_app.
  apply NoDup_app. repeat split; [done| |apply NoDup_singleton].
  intros x Hx Hx'. cbn in Hx'. apply list_elem_of_singleton in Hx' as ->.
  apply list_elem_of_fmap in Hx as (it & Heq & Hit).
  rewrite Forall_forall in Hdiff. specialize (Hdiff it Hit).
  unfold differs in Hdiff. rewrite <- Heq in Hdiff.
  by apply memcmp_self_not_false in Hdiff.
Qed.

Lemma hashmap_new_dictionary n bucketcount hash clone free w m w' :
  hashmap_new bucketcount hash clone free w = Val (Some m, w') →
  dictionary n m.
Proof.
  intros Hnew. pose proof (hashmap_new_buckets _ _ _ _ _ _ _ Hnew) as Hb.
  split; [by eapply hashmap_new_well_formed|]. split; [|split].
  - unfold fixed_keys. rewrite Hb. by apply Forall_replicate.
  - intros i c it Hc Hit. rewrite Hb in Hc.
    apply lookup_replicate in Hc as [-> _]. by apply elem_of_nil in Hit.
  - rewrite Hb. apply Forall_replicate. apply NoDup_nil_2.
Qed.

Lemma step_dictionary n o m w b m' w' :
  0 < n ≤ 255 → dictionary n m → fixed_key_op n o →
  step o (Some m) w = Val (b, Some m', w') →
  dictionary n m'.
Proof.
  intros Hn Hd Ho H. unfold dictionary, fixed_keys, placed in *.
  pose proof Hd as (Hwf & Hfix & Hpl & Hnd).
  destruct b; cycle 1.
  { destruct o as [key ks v|key ks]; cbn [step] in H.
    - by apply hashmap_add_false in H as [= ->].
    - by apply hashmap_remove_false in H as [[= ->] _]. }
  split; [by eapply step_well_formed|].
  destruct o as [[k|] ks v|[k|] ks]; cbn [step fixed_key_op] in H, Ho;
    try done; destruct Ho as [-> Hlen].
  - apply hashmap_add_true in H
      as (index & old & nb & _ & _ & Hidx & Hold & Hdiff & Hnb & [= ->] & _).
    rewrite uint8_small in Hnb by lia.
    pose proof (lookup_lt_Some _ _ _ Hold) as Hlt.
    destruct (well_formed_index _ _ _ _ Hwf Hidx) as [Hrange _].
    rewrite bucket_index_defined in Hidx by done. injection Hidx as Hidx.
    split; [|split]; cbn [set_buckets map_buckets].
    + apply Forall_insert; [done|]. apply Forall_app. split.
      * exact (Forall_lookup_1 _ _ _ _ Hfix Hold).
      * apply Forall_singleton. rewrite Hnb. cbn. rewrite length_take. lia.
    + intros i c it Hc Hit. cbn in Hc |- *.
      destruct (decide (i = Z.to_nat index)) as [->|Hne].
      * rewrite list_lookup_insert_eq in Hc by done. injection Hc as <-.
        apply elem_of_app in Hit as [Hit|Hit%list_elem_of_singleton].
        -- by eapply Hpl.
        -- subst it. rewrite Hnb. cbn. rewrite Hidx. lia.
      * rewrite list_lookup_insert_ne in Hc by done. by eapply Hpl.
    + apply Forall_insert; [done|]. eapply distinct_keys_append; [|done].
      exact (Forall_lookup_1 _ _ _ _ Hnd Hold).
  - apply hashmap_remove_true in H
      as (hash & pre & it & post & _ & _ & Hc & _ & _ & [= ->] & _).
    pose proof (lookup_lt_Some _ _ _ Hc) as Hlt.
    split; [|split]; cbn [set_buckets map_buckets].
    + apply Forall_insert; [done|].
      pose proof (Forall_lookup_1 _ _ _ _ Hfix Hc) as Hl.
      apply Forall_app in Hl as [? [_ ?]%Forall_cons]. by apply Forall_app.
    + intros i c it' Hc' Hit'. cbn in Hc' |- *.
      destruct (decide (i = Z.to_nat hash)) as [->|Hne].
      * rewrite list_lookup_insert_eq in Hc' by done. injection Hc' as <-.
        eapply Hpl; [exact Hc|].
        apply elem_of_app in Hit' as [?|?]; apply elem_of_app;
          [by left|right; by apply elem_of_cons; right].
      * rewrite list_lookup_insert_ne in Hc' by done. by eapply Hpl.
    + apply Forall_insert; [done|].
      pose proof (Forall_lookup_1 _ _ _ _ Hnd Hc) as Hl. cbn in Hl.
      rewrite fmap_app, fmap_cons in Hl. rewrite fmap_app.
      by eapply NoDup_app_middle.
Qed.

Lemma run_dictionary n ops : ∀ m w m' w',
  0 < n ≤ 255 → dictionary n m → Forall (fixed_key_op n) ops →
  run ops (Some m) w = Val (Some m', w') →
  dictionary n m'.
Proof.
  induction ops as [|o ops IH]; intros m w m' w' Hn Hd Hops H; cbn in H.
  - by injection H as <- _.
  - inv_bind H. destruct r as [[b map1] w1].
    apply Forall_cons in Hops as [Ho Hops].
    destruct (step_Some _ _ _ _ _ _ Hr) as [m1 ->].
    eapply IH; [done| |done..]. by eapply step_dictionary.
Qed.

(** The chain a key of [n] bytes selects in a dictionary: it holds the
    one entry with this key, between entries that differ from it, or
    only entries that differ; entries with this key are nowhere else. *)
Lemma dictionary_chain n m k :
  0 < n → dictionary n m → n ≤ Z.of_nat (length k) →
  ∃ i c,
    bucket_index m k n = Val i ∧
    map_buckets m !! Z.to_nat i = Some c ∧
    (∀ it, it ∈ entries m → bkt_key it = take (Z.to_nat n) k → it ∈ c) ∧
    ((∃ pre it post, c = pre ++ it :: post ∧
        Forall (differs k (Z.to_nat n)) pre ∧
        Forall (differs k (Z.to_nat n)) post ∧
        bkt_key it = take (Z.to_nat n) k ∧
        memcmp (bkt_key it) k (Z.to_nat n) = Val true) ∨
     (Forall (differs k (Z.to_nat n)) c ∧
      ∀ it, it ∈ c → bkt_key it ≠ take (Z.to_nat n) k)).
Proof.
  intros Hn (Hwf & Hfix & Hpl & Hnd) Hlen.
  pose proof (bucket_index_defined m _ _ Hlen) as Hi.
  destruct (well_formed_index _ _ _ _ Hwf Hi) as [Hrange [c Hc]].
  eexists _, c. split; [exact Hi|]. split; [exact Hc|].
  assert (Hclen : Forall (λ it, length (bkt_key it) = Z.to_nat n) c).
  { pose proof (Forall_lookup_1 _ _ _ _ Hfix Hc) as Hl.
    eapply Forall_impl; [exact Hl|]. intros it Hit. cbn in Hit. lia. }
  assert (Hdiff : ∀ l, Forall (λ it, length (bkt_key it) = Z.to_nat n) l →
            Forall (λ x, bkt_key x ≠ take (Z.to_nat n) k) l →
            Forall (differs k (Z.to_nat n)) l).
  { intros l Hl Hne. rewrite Forall_forall in *. intros it Hit.
    apply fixed_key_differs; [by apply Hl|lia|by apply Hne]. }
  split.
  - intros it [j [c' [Hc' Hit]]]%elem_of_entries Hkey.
    specialize (Hpl _ _ _ Hc' Hit). rewrite Hkey in Hpl.
    rewrite Hpl, Nat2Z.id in Hc. by simplify_eq.
  - destruct (chain_split_key c (take (Z.to_nat n) k))
      as [(pre & it & post & -> & Hpre & Hit)|Hall].
    + left. exists pre, it, post.
      apply Forall_app in Hclen as [Hlpre [Hlit Hlpost]%Forall_cons].
      pose proof (Forall_lookup_1 _ _ _ _ Hnd Hc) as Hl. cbn in Hl.
      rewrite fmap_app, fmap_cons in Hl.
      apply NoDup_app in Hl as (_ & _ & [Hnotin _]%NoDup_cons).
      split; [done|]. split; [by apply Hdiff|]. split; [|split; [done|]].
      * apply Hdiff; [done|]. rewrite Forall_forall. intros x Hx Hxk.
        apply Hnotin. rewrite Hit, <- Hxk. by apply list_elem_of_fmap_2.
      * apply fixed_key_equal; [done|lia|done].
    + right. split; [by apply Hdiff|]. by rewrite Forall_forall in Hall.
Qed.

Lemma differs_not_key k n it :
  (n ≤ length k)%nat → differs k n it → bkt_key it ≠ take n k.
Proof.
  unfold differs. intros Hn Hd Heq. rewrite Heq in Hd.
  by rewrite memcmp_stored_key in Hd.
Qed.

Lemma dictionary_get n m k :
  0 < n → dictionary n m → n ≤ Z.of_nat (length k) →
  (∀ it, it ∈ entries m → bkt_key it = take (Z.to_nat n) k →
     hashmap_get (Some m) (Some k) n = Val (bkt_value it)) ∧
  ((∀ it, it ∈ entries m → bkt_key it ≠ take (Z.to_nat n) k) →
     hashmap_get (Some m) (Some k) n = Val 0).
Proof.
  intros Hn Hd Hlen. pose proof Hd as ([Hs _] & _).
  assert (Hlen' : (Z.to_nat n ≤ length k)%nat) by lia.
  destruct (dictionary_chain _ _ _ Hn Hd Hlen)
    as (i & c & Hi & Hc & Hin & Hcases).
  split.
  - intros it0 Hit0 Hkey. specialize (Hin _ Hit0 Hkey).
    destruct Hcases
      as [(pre & it & post & -> & Hpre & Hpost & Hit & Hcmp)|[Hall Hne]];
      [|by destruct (Hne _ Hin)].
    assert (it0 = it) as ->.
    { apply elem_of_app in Hin as [Hin|[->|Hin]%elem_of_cons]; [|done|].
      - rewrite Forall_forall in Hpre.
        by destruct (differs_not_key k _ _ Hlen' (Hpre _ Hin)).
      - rewrite Forall_forall in Hpost.
        by destruct (differs_not_key k _ _ Hlen' (Hpost _ Hin)). }
    eapply hashmap_get_match; [done|lia|done..].
  - intros Habsent.
    destruct Hcases
      as [(pre & it & post & -> & Hpre & Hpost & Hit & Hcmp)|[Hall Hne]].
    + destruct (Habsent it); [|done]. apply elem_of_entries.
      exists (Z.to_nat i), (pre ++ it :: post). split; [done|].
      apply elem_of_app. right. by left.
    + eapply hashmap_get_absent; [done|lia|done..].
Qed.

Lemma dictionary_add n m k v w :
  0 < n ≤ 255 → dictionary n m → n ≤ Z.of_nat (length k) →
  ∃ b m' w',
    hashmap_add (Some m) (Some k) n v w = Val (b, Some m', w') ∧
    (b = true ↔
       (∀ it, it ∈ entries m → bkt_key it ≠ take (Z.to_nat n) k) ∧
       (malloc w).1 = true ∧ (malloc (malloc w).2).1 = true) ∧
    (b = true →
       entries m'
       ≡ₚ entries m ++
            [Bucket (take (Z.to_nat n) k) n
               (stored (map_value_clone_function m) v (env w)).1]) ∧
    (b = false → m' = m).
Proof.
  intros Hn Hd Hlen.
  destruct (dictionary_chain _ _ _ (proj1 Hn) Hd Hlen)
    as (i & c & Hi & Hc & Hin & Hcases).
  pose proof (uint8_small n ltac:(lia)) as H8.
  assert (Hks8 : n ≠ 0) by lia.
  assert (Hlen8 : uint8 n ≤ Z.of_nat (length k)) by (rewrite H8; lia).
  destruct Hcases
    as [(pre & it & post & -> & Hpre & Hpost & Hit & Hcmp)|[Hall Hne]].
  - destruct (hashmap_add_duplicate m k n v w i pre it post) as [w' Hadd];
      rewrite ?H8; try done; try lia.
    exists false, m, w'. split; [done|]. split; [|done].
    split; [done|]. intros [Habsent _]. destruct (Habsent it); [|done].
    apply elem_of_entries. exists (Z.to_nat i), (pre ++ it :: post).
    split; [done|]. apply elem_of_app. right. by left.
  - destruct ((malloc w).1) eqn:Hm1; [destruct ((malloc (malloc w).2).1) eqn:Hm2|].
    + assert (H1 : malloc w = (true, (malloc w).2)).
      { rewrite <- Hm1. apply surjective_pairing. }
      assert (H2 : malloc (malloc w).2 = (true, (malloc (malloc w).2).2)).
      { rewrite <- Hm2. apply surjective_pairing. }
      eexists true, _, _. split.
      { rewrite (hashmap_add_fresh m k n v w _ _ i c Hks8 Hlen8 Hlen H1 H2);
          [done..|]. by rewrite H8. }
      split; [|split; [|done]].
      * split; [|done]. intros _. split; [|done].
        intros it [j [c' [Hc' Hit]]]%elem_of_entries Hkey.
        assert (it ∈ c) as Hitc.
        { apply Hin; [|done]. apply elem_of_entries. eauto. }
        by destruct (Hne _ Hitc).
      * intros _. rewrite H8. by apply entries_append.
    + destruct (hashmap_add_no_memory (Some m) (Some k) n v w)
        as (w' & Hadd & _); [by right|].
      exists false, m, w'. split; [done|]. split; [|done].
      split; [done|]. by intros (_ & _ & ?).
    + destruct (hashmap_add_no_memory (Some m) (Some k) n v w)
        as (w' & Hadd & _); [by left|].
      exists false, m, w'. split; [done|]. split; [|done].
      split; [done|]. by intros (_ & ? & _).
Qed.

Lemma dictionary_remove n m k w :
  0 < n ≤ 255 → dictionary n m → n ≤ Z.of_nat (length k) →
  ∃ b m' w',
    hashmap_remove (Some m) (Some k) n w = Val (b, Some m', w') ∧
    (b = true ↔
       ∃ it, it ∈ entries m ∧ bkt_key it = take (Z.to_nat n) k) ∧
    (b = true →
       (∃ it, it ∈ entries m ∧ bkt_key it = take (Z.to_nat n) k ∧
          entries m ≡ₚ it :: entries m' ∧
          w' = World (heap w)
                 (_hashbucket_free it (map_value_free_function m) (env w))) ∧
       ∀ it', it' ∈ entries m' → bkt_key it' ≠ take (Z.to_nat n) k) ∧
    (b = false → m' = m ∧ w' = w).
Proof.
  intros Hn Hd Hlen. pose proof Hd as ([Hs _] & _).
  assert (Hlen' : (Z.to_nat n ≤ length k)%nat) by lia.
  destruct (dictionary_chain _ _ _ (proj1 Hn) Hd Hlen)
    as (i & c & Hi & Hc & Hin & Hcases).
  destruct Hcases
    as [(pre & it & post & -> & Hpre & Hpost & Hit & Hcmp)|[Hall Hne]].
  - assert (Hitin : it ∈ entries m).
    { apply elem_of_entries. exists (Z.to_nat i), (pre ++ it :: post).
      split; [done|]. apply elem_of_app. right. by left. }
    pose proof (hashmap_remove_match m k n w i pre it post Hs
                  ltac:(lia) Hi Hc Hpre Hcmp) as Hrm.
    eexists true, _, _. split; [exact Hrm|].
    split; [split; [by eauto|done]|].
    split; [|done]. intros _. split.
    { exists it. split; [done|]. split; [done|].
      split; [by apply entries_unlink|done]. }
    assert (Hd' : dictionary n
              (set_buckets m (<[Z.to_nat i := pre ++ post]> (map_buckets m)))).
    { eapply (step_dictionary n (OpRemove (Some k) n)); [done..| |exact Hrm].
      by cbn. }
    destruct (dictionary_chain _ _ _ (proj1 Hn) Hd' Hlen)
      as (i' & c' & Hi' & Hc' & Hin' & _).
    rewrite bucket_index_set_buckets, Hi in Hi'. injection Hi' as <-.
    cbn [set_buckets map_buckets] in Hc'.
    rewrite list_lookup_insert_eq in Hc' by by eapply lookup_lt_Some.
    injection Hc' as <-.
    intros it' Hit' Hkey. specialize (Hin' _ Hit' Hkey).
    apply elem_of_app in Hin' as [Hin'|Hin'].
    + rewrite Forall_forall in Hpre.
      by destruct (differs_not_key k _ _ Hlen' (Hpre _ Hin')).
    + rewrite Forall_forall in Hpost.
      by destruct (differs_not_key k _ _ Hlen' (Hpost _ Hin')).
  - exists false, m, w. split.
    { eapply hashmap_remove_absent; [done|lia|done..]. }
    split; [|done]. split; [done|]. intros (it & Hit & Hkey).
    by destruct (Hne _ (Hin _ Hit Hkey)).
Qed.

Lemma run_fixed_defined n ops : ∀ m w,
  0 < n ≤ 255 → dictionary n m → Forall (fixed_key_op n) ops →
  ∃ m' w', run ops (Some m) w = Val (Some m', w').
Proof.
  induction ops as [|o ops IH]; intros m w Hn Hd Hops; [by eexists _, _|].
  apply Forall_cons in Hops as [Ho Hops].
  assert (Hstep : ∃ b m1 w1, step o (Some m) w = Val (b, Some m1, w1)).
  { destruct o as [[k|] ks v|[k|] ks]; cbn [fixed_key_op] in Ho; try done;
      destruct Ho as [-> Hlen]; cbn [step].
    - destruct (dictionary_add n m k v w Hn Hd Hlen) as (b & m1 & w1 & H & _).
      eauto.
    - destruct (dictionary_remove n m k w Hn Hd Hlen) as (b & m1 & w1 & H & _).
      eauto. }
  destruct Hstep as (b & m1 & w1 & Hstep). cbn [run]. rewrite Hstep.
  cbn [mbind result_bind]. apply IH; [done| |done].
  by eapply step_dictionary.
Qed.

(** X12: when every key passed to [hashmap_add] and [hashmap_remove] has
    the same length of [n] bytes, [1 <= n <= 255], in a buffer that
    holds them, no operation on a map made by [hashmap_new] is
    undefined: every sequence of such operations runs to its end. *)
Theorem fixed_keys_never_undefined
    n bucketcount hash clone free w0 m0 w1 ops :
  0 < n ≤ 255 →
  hashmap_new bucketcount hash clone free w0 = Val (Some m0, w1) →
  Forall (fixed_key_op n) ops →
  ∃ m w, run ops (Some m0) w1 = Val (Some m, w).
Proof.
  intros Hn Hnew Hops. apply (run_fixed_defined n); [done| |done].
  by eapply hashmap_new_dictionary.
Qed.

(** X13: with keys of one length [n], [hashmap_get] is exact: it returns
    the value of the entry whose key is the [n] bytes looked up when the
    map has such an entry, and [NULL] when it has none. *)
Theorem fixed_keys_lookup_exact
    n bucketcount hash clone free w0 m0 w1 ops m w k :
  0 < n ≤ 255 →
  hashmap_new bucketcount hash clone free w0 = Val (Some m0, w1) →
  Forall (fixed_key_op n) ops →
  run ops (Some m0) w1 = Val (Some m, w) →
  n ≤ Z.of_nat (length k) →
  (∀ it, it ∈ entries m → bkt_key it = take (Z.to_nat n) k →
     hashmap_get (Some m) (Some k) n = Val (bkt_value it)) ∧
  ((∀ it, it ∈ entries m → bkt_key it ≠ take (Z.to_nat n) k) →
     hashmap_get (Some m) (Some k) n = Val 0).
Proof.
  intros Hn Hnew Hops Hrun Hlen. apply dictionary_get; [lia| |done].
  eapply run_dictionary; [done| |done..]. by eapply hashmap_new_dictionary.
Qed.

(** X14: with keys of one length [n], [hashmap_add] returns [true]
    exactly when the map has no entry with the [n] bytes of the key and
    both allocations succeed; the map then has one more entry, with
    these bytes as key and the value, or its clone, as value. When it
    returns [false] the map is as before. *)
Theorem fixed_keys_add_outcome
    n bucketcount hash clone free w0 m0 w1 ops m w k v w2 :
  0 < n ≤ 255 →
  hashmap_new bucketcount hash clone free w0 = Val (Some m0, w1) →
  Forall (fixed_key_op n) ops →
  run ops (Some m0) w1 = Val (Some m, w) →
  n ≤ Z.of_nat (length k) →
  ∃ b m' w',
    hashmap_add (Some m) (Some k) n v w2 = Val (b, Some m', w') ∧
    (b = true ↔
       (∀ it, it ∈ entries m → bkt_key it ≠ take (Z.to_nat n) k) ∧
       (malloc w2).1 = true ∧ (malloc (malloc w2).2).1 = true) ∧
    (b = true →
       entries m'
       ≡ₚ entries m ++
            [Bucket (take (Z.to_nat n) k) n
               (stored (map_value_clone_function m) v (env w2)).1]) ∧
    (b = false → m' = m).
Proof.
  intros Hn Hnew Hops Hrun Hlen. apply dictionary_add; [done| |done].
  eapply run_dictionary; [done| |done..]. by eapply hashmap_new_dictionary.
Qed.

(** X15: with keys of one length [n], [hashmap_remove] returns [true]
    exactly when the map has an entry with the [n] bytes of the key; it
    then has removed that entry and no other, has handed the value of
    that entry to the free function as [_hashbucket_free] does, and no
    entry with these bytes is left. When it returns [false] the map and
    the caller's state are as before. *)
Theorem fixed_keys_remove_outcome
    n bucketcount hash clone free w0 m0 w1 ops m w k w2 :
  0 < n ≤ 255 →
  hashmap_new bucketcount hash clone free w0 = Val (Some m0, w1) →
  Forall (fixed_key_op n) ops →
  run ops (Some m0) w1 = Val (Some m, w) →
  n ≤ Z.of_nat (length k) →
  ∃ b m' w',
    hashmap_remove (Some m) (Some k) n w2 = Val (b, Some m', w') ∧
    (b = true ↔
       ∃ it, it ∈ entries m ∧ bkt_key it = take (Z.to_nat n) k) ∧
    (b = true →
       (∃ it, it ∈ entries m ∧ bkt_key it = take (Z.to_nat n) k ∧
          entries m ≡ₚ it :: entries m' ∧
          w' = World (heap w2)
                 (_hashbucket_free it (map_value_free_function m) (env w2))) ∧
       ∀ it', it' ∈ entries m' → bkt_key it' ≠ take (Z.to_nat n) k) ∧
    (b = false → m' = m ∧ w' = w2).
Proof.
  intros Hn Hnew Hops Hrun Hlen. apply dictionary_remove; [done| |done].
  eapply run_dictionary; [done| |done..]. by eapply hashmap_new_dictionary.
Qed.

End Dictionary.

(** ** Every value handed to the map is freed once *)

Lemma malloc_nil {E} (w : world E) : heap w = [] → malloc w = (true, w).
Proof. unfold malloc. by intros ->. Qed.

Lemma foldl_record_call (vs calls : list Z) :
  foldl (λ e v, record_call v e) calls vs = calls ++ vs.
Proof.
  revert calls. induction vs as [|v vs IH]; intros calls; cbn.
  - by rewrite app_nil_r.
  - rewrite IH. unfold record_call. by rewrite <- (assoc_L (++)).
Qed.

Lemma non_null_singleton v :
  non_null [v] = if bool_decide (v ≠ 0) then [v] else [].
Proof. unfold non_null. rewrite filter_cons. by repeat case_decide; case_bool_decide. Qed.

Lemma _hashbucket_free_record it (calls : list Z) :
  _hashbucket_free it (Some record_call) calls
  = calls ++ non_null [bkt_value it].
Proof.
  unfold _hashbucket_free. rewrite non_null_singleton.
  case_bool_decide; [done|by rewrite app_nil_r].
Qed.

(** An insertion with valid arguments and memory that returns [false]
    has built the entry and released it again. *)
Lemma hashmap_add_rejected {E} (m : _hashmap_s E) k key_size v w map' w' :
  key_size ≠ 0 → heap w = [] →
  hashmap_add (Some m) (Some k) key_size v w = Val (false, map', w') →
  map' = Some m ∧
  w' = World []
         (_hashbucket_free
            (Bucket (take (Z.to_nat (uint8 key_size)) k) (uint8 key_size)
               (stored (map_value_clone_function m) v (env w)).1)
            (map_value_free_function m)
            (stored (map_value_clone_function m) v (env w)).2).
Proof.
  intros Hks Hheap Hadd. unfold hashmap_add in Hadd.
  rewrite bool_decide_eq_false_2 in Hadd by done.
  inv_bind Hadd as r Hnew. destruct r as [[nb|] w3].
  - apply _hashbucket_new_Some in Hnew
      as (w1 & w2 & H1 & H2 & _ & -> & ->).
    rewrite (malloc_nil _ Hheap) in H1. injection H1 as <-.
    rewrite (malloc_nil _ Hheap) in H2. injection H2 as <-.
    inv_bind Hadd as index Hindex. inv_bind Hadd as r Hins.
    destruct r as [[] m1]; [done|]. injection Hadd as <- <-.
    apply insert_at_false in Hins as (-> & _). cbn [heap env].
    by rewrite Hheap.
  - unfold _hashbucket_new in Hnew. rewrite (malloc_nil _ Hheap) in Hnew.
    cbn [negb] in Hnew. rewrite (malloc_nil _ Hheap) in Hnew.
    cbn [negb] in Hnew. inv_bind Hnew.
    by destruct (map_value_clone_function m) as [cl|];
      [destruct (cl v (env w))|].
Qed.

Lemma hashmap_add_heap_nil {E} (m : _hashmap_s E) k key_size v w map' w' :
  heap w = [] →
  hashmap_add (Some m) (Some k) key_size v w = Val (true, map', w') →
  heap w' = [].
Proof.
  intros Hheap Hadd. unfold hashmap_add in Hadd.
  case_bool_decide as Hks; [done|].
  inv_bind Hadd as r Hnew. destruct r as [[nb|] w3]; [|done].
  apply _hashbucket_new_Some in Hnew as (w1 & w2 & H1 & H2 & _ & -> & ->).
  rewrite (malloc_nil _ Hheap) in H1. injection H1 as <-.
  rewrite (malloc_nil _ Hheap) in H2. injection H2 as <-.
  inv_bind Hadd as index Hindex. inv_bind Hadd as r Hins.
  destruct r as [[] m1]; [|done]. by injection Hadd as _ <-.
Qed.

#[global] Instance non_null_Permutation : Proper ((≡ₚ) ==> (≡ₚ)) non_null.
Proof. intros vs1 vs2 Hvs. unfold non_null. by rewrite Hvs. Qed.

Lemma hashmap_new_fields {E} bucketcount hash clone free (w : world E) m w' :
  hashmap_new bucketcount hash clone free w = Val (Some m, w') →
  map_value_clone_function m = clone ∧
  map_value_free_function m = free ∧
  entries m = [] ∧ env w' = env w ∧ (heap w = [] → heap w' = []).
Proof.
  intros Hnew. pose proof (hashmap_new_buckets _ _ _ _ _ _ _ Hnew) as Hb.
  assert (Hentries : entries m = []).
  { unfold entries. rewrite Hb. generalize (Z.to_nat (map_bucketcount m)).
    intros n. by induction n. }
  revert Hnew. unfold hashmap_new. case_bool_decide as Hc; [done|].
  destruct hash as [h|]; [|done].
  destruct (malloc w) as [[] wa] eqn:H1; cbn [negb]; [|done].
  intros H. inv_bind H.
  destruct (malloc wa) as [[] wb] eqn:H2; cbn [negb]; [|done].
  injection H as <- <-. cbn. repeat split; [done|..].
  - rewrite (malloc_env _ _ _ H2). apply (malloc_env _ _ _ H1).
  - intros Hheap. rewrite (malloc_nil _ Hheap) in H1. injection H1 as <-.
    rewrite (malloc_nil _ Hheap) in H2. by injection H2 as <-.
Qed.

Section Ownership.
Implicit Types (w : world (list Z)) (m : _hashmap_s (list Z)).

(** The calls of the free function so far together with the values
    still in the map. *)
Lemma step_conserves o m w b m' w' :
  heap w = [] →
  map_value_clone_function m = None →
  map_value_free_function m = Some record_call →
  checked_op o →
  step o (Some m) w = Val (b, Some m', w') →
  heap w' = [] ∧
  map_value_clone_function m' = None ∧
  map_value_free_function m' = Some record_call ∧
  env w' ++ non_null (bkt_value <$> entries m')
  ≡ₚ (env w ++ non_null (bkt_value <$> entries m))
       ++ non_null (added_values [o]).
Proof.
  intros Hheap Hclone Hfree Ho H.
  destruct o as [[k|] ks v|[k|] ks]; cbn [step checked_op] in H, Ho; try done.
  - change (added_values [OpAdd (Some k) ks v]) with [v]. destruct b.
    + pose proof (hashmap_add_heap_nil _ _ _ _ _ _ _ Hheap H) as Hheap'.
      apply hashmap_add_true in H
        as (index & old & nb & _ & _ & _ & Hold & _ & Hnb & [= ->] & Henv).
      rewrite Hclone in Hnb, Henv. cbn in Hnb, Henv.
      split; [done|]. split; [done|]. split; [done|].
      rewrite Henv, (entries_append _ _ _ _ Hold), fmap_app.
      unfold non_null. rewrite filter_app, (assoc_L (++)).
      by rewrite Hnb.
    + apply hashmap_add_rejected in H as [[= ->] ->]; [|done..].
      rewrite Hclone, Hfree. cbn [stored fst snd heap env].
      split; [done|]. split; [done|]. split; [done|].
      rewrite _hashbucket_free_record. cbn [bkt_value].
      rewrite <- !(assoc_L (++)). apply Permutation_app_head.
      apply Permutation_app_comm.
  - change (added_values [OpRemove (Some k) ks]) with (@nil Z).
    rewrite app_nil_r. destruct b.
    + apply hashmap_remove_true in H
        as (hash & pre & it & post & _ & _ & Hc & _ & _ & [= ->] & ->).
      rewrite Hfree. cbn [heap env]. split; [done|]. split; [done|].
      split; [done|]. rewrite _hashbucket_free_record.
      rewrite (entries_unlink _ _ _ _ _ Hc), fmap_cons.
      change (non_null (bkt_value it :: (bkt_value <$> ?l)))
        with (non_null ([bkt_value it] ++ (bkt_value <$> l))).
      rewrite (non_null_app [bkt_value it] (bkt_value <$> _)).
      by rewrite <- !(assoc_L (++)).
    + by apply hashmap_remove_false in H as [[= ->] ->].
Qed.

Lemma run_conserves ops : ∀ m w m' w',
  heap w = [] →
  map_value_clone_function m = None →
  map_value_free_function m = Some record_call →
  Forall checked_op ops →
  run ops (Some m) w = Val (Some m', w') →
  map_value_free_function m' = Some record_call ∧
  env w' ++ non_null (bkt_value <$> entries m')
  ≡ₚ (env w ++ non_null (bkt_value <$> entries m))
       ++ non_null (added_values ops).
Proof.
  induction ops as [|o ops IH]; intros m w m' w' Hheap Hclone Hfree Hops H;
    cbn [run] in H.
  - injection H as <- <-. cbn. by rewrite app_nil_r.
  - inv_bind H. destruct r as [[b map1] w1].
    apply Forall_cons in Hops as [Ho Hops].
    destruct (step_Some _ _ _ _ _ _ Hr) as [m1 ->].
    destruct (step_conserves _ _ _ _ _ _ Hheap Hclone Hfree Ho Hr)
      as (Hheap1 & Hclone1 & Hfree1 & Hperm).
    destruct (IH _ _ _ _ Hheap1 Hclone1 Hfree1 Hops H) as [Hfree2 Hperm2].
    split; [done|]. rewrite Hperm2, Hperm.
    rewrite <- !(assoc_L (++)). do 2 apply Permutation_app_head.
    change (o :: ops) with ([o] ++ ops). unfold added_values, non_null.
    by rewrite omap_app, filter_app.
Qed.

(** X17: on a map without clone function, with a free function, and
    with memory for every entry, every value that is not [NULL] and was
    passed to a [hashmap_add] with valid arguments has been handed to
    the free function exactly once by the time [hashmap_destroy]
    returns, whether the insertion stored it or rejected it, and the
    free function has been called on nothing else: the calls are a
    permutation of these values. *)
Theorem values_freed_exactly_once bucketcount hash w0 m0 w1 ops m w w' :
  heap w0 = [] → env w0 = [] →
  hashmap_new bucketcount hash None (Some record_call) w0
  = Val (Some m0, w1) →
  Forall checked_op ops →
  run ops (Some m0) w1 = Val (Some m, w) →
  hashmap_destroy (Some m) w = Val w' →
  env w' ≡ₚ non_null (added_values ops).
Proof.
  intros Hheap Henv Hnew Hops Hrun Hdestroy.
  pose proof (run_sized _ _ _ _ _ _ _ _ _ _ Hnew Hrun) as Hsized.
  destruct (hashmap_new_fields _ _ _ _ _ _ _ Hnew)
    as (Hclone & Hfree & Hentries & Henv1 & Hheap1).
  destruct (run_conserves _ _ _ _ _ (Hheap1 Hheap) Hclone Hfree Hops Hrun)
    as [Hfree' Hperm].
  rewrite Hentries, Henv1, Henv in Hperm. cbn in Hperm.
  rewrite (hashmap_destroy_sized _ _ Hsized), Hfree' in Hdestroy.
  injection Hdestroy as <-. cbn [env].
  by rewrite foldl_record_call.
Qed.

End Ownership.

(** ** Other keys are not disturbed *)

Section Frame.
Context {E : Type}.
Implicit Types (w : world E) (m : _hashmap_s E).
Implicit Types (k : list byte) (it : _hashbucket_s).

Lemma dictionary_get_cases n m k :
  0 < n → dictionary n m → n ≤ Z.of_nat (length k) →
  (∃ it, it ∈ entries m ∧ bkt_key it = take (Z.to_nat n) k ∧
     hashmap_get (Some m) (Some k) n = Val (bkt_value it)) ∨
  ((∀ it, it ∈ entries m → bkt_key it ≠ take (Z.to_nat n) k) ∧
     hashmap_get (Some m) (Some k) n = Val 0).
Proof.
  intros Hn Hd Hlen.
  destruct (dictionary_get n m k Hn Hd Hlen) as [Hfound Habsent].
  destruct (dictionary_chain _ _ _ Hn Hd Hlen)
    as (i & c & Hi & Hc & Hin & Hcases).
  destruct Hcases as [(pre & it & post & -> & _ & _ & Hit & _)|[_ Hne]].
  - left. exists it.
    assert (it ∈ entries m).
    { apply elem_of_entries. exists (Z.to_nat i), (pre ++ it :: post).
      split; [done|]. apply elem_of_app. right. by left. }
    split; [done|]. split; [done|]. by apply Hfound.
  - right. assert (Hall : ∀ it, it ∈ entries m →
                       bkt_key it ≠ take (Z.to_nat n) k).
    { intros it Hit Hkey. by destruct (Hne _ (Hin _ Hit Hkey)). }
    split; [done|]. by apply Habsent.
Qed.

(** What an operation on the key [k] does to the entries with another
    key [kb']: nothing. *)
Lemma step_other_entries n o m w b m' w' k kb' :
  0 < n ≤ 255 → dictionary n m → n ≤ Z.of_nat (length k) →
  (∃ v, o = OpAdd (Some k) n v) ∨ o = OpRemove (Some k) n →
  take (Z.to_nat n) k ≠ kb' →
  step o (Some m) w = Val (b, Some m', w') →
  ∀ it, bkt_key it = kb' → (it ∈ entries m' ↔ it ∈ entries m).
Proof.
  intros Hn Hd Hlen Ho Hne H it Hkey.
  destruct Ho as [[v ->]| ->]; cbn [step] in H.
  - destruct (dictionary_add n m k v w Hn Hd Hlen)
      as (b0 & m0 & w0 & Hadd & _ & Htrue & Hfalse).
    rewrite Hadd in H. injection H as -> -> ->.
    destruct b; [|by rewrite Hfalse].
    rewrite (Htrue eq_refl), elem_of_app, list_elem_of_singleton.
    split; [|by left]. intros [?| ->]; [done|]. by destruct Hne.
  - destruct (dictionary_remove n m k w Hn Hd Hlen)
      as (b0 & m0 & w0 & Hrm & _ & Htrue & Hfalse).
    rewrite Hrm in H. injection H as -> -> ->.
    destruct b; [|by destruct (Hfalse eq_refl) as [-> _]].
    destruct (Htrue eq_refl) as [(it0 & _ & Hit0 & Hperm & _) _].
    rewrite Hperm, elem_of_cons. split; [by right|].
    intros [->|?]; [|done]. destruct Hne. congruence.
Qed.

(** X16: with keys of one length [n], a [hashmap_add] or
    [hashmap_remove] for one key leaves the result of [hashmap_get] for
    every key with other bytes as it was. *)
Theorem fixed_keys_other_lookups_unchanged
    n bucketcount hash clone free w0 m0 w1 ops m w o k k' w2 b m' w' :
  0 < n ≤ 255 →
  hashmap_new bucketcount hash clone free w0 = Val (Some m0, w1) →
  Forall (fixed_key_op n) ops →
  run ops (Some m0) w1 = Val (Some m, w) →
  n ≤ Z.of_nat (length k) → n ≤ Z.of_nat (length k') →
  take (Z.to_nat n) k ≠ take (Z.to_nat n) k' →
  (∃ v, o = OpAdd (Some k) n v) ∨ o = OpRemove (Some k) n →
  step o (Some m) w2 = Val (b, Some m', w') →
  hashmap_get (Some m') (Some k') n = hashmap_get (Some m) (Some k') n.
Proof.
  intros Hn Hnew Hops Hrun Hlen Hlen' Hne Ho Hstep.
  assert (Hd : dictionary n m).
  { eapply run_dictionary; [done| |done..]. by eapply hashmap_new_dictionary. }
  assert (Hd' : dictionary n m').
  { eapply step_dictionary; [done..| |exact Hstep].
    by destruct Ho as [[v ->]| ->]. }
  pose proof (step_other_entries _ _ _ _ _ _ _ _ _ Hn Hd Hlen Ho Hne Hstep)
    as Hsame.
  destruct (dictionary_get n m k' (proj1 Hn) Hd Hlen') as [Hfound Habsent].
  destruct (dictionary_get_cases n m' k' (proj1 Hn) Hd' Hlen')
    as [(it & Hit & Hkey & ->)|[Hall ->]]; symmetry.
  - apply Hfound; [|done]. by apply Hsame.
  - apply Habsent. intros it Hit Hkey. apply (Hall it); [|done].
    by apply Hsame.
Qed.

End Frame.

(** ** Instances of the further properties *)

Lemma sample_tail_eq :
  run sample_tail (Some sample_abc) (World [] [])
  = Val (Some sample_abc_b, World [] [30]).
Proof. reflexivity. Qed.

Lemma sample_fixed_eq :
  run sample_fixed_ops (Some sample_new) (World [] [])
  = Val (Some sample_fixed, World [] [40; 30]).
Proof. reflexivity. Qed.


Lemma add_then_get_witness :
  sized sample_new ∧ 0 < 3 ≤ 255 ∧
  hashmap_add (Some sample_new) (Some key_abc) 3 10 (World [] [])
  = Val (true, Some sample_abc, World [] []) ∧
  Forall (spares (take (Z.to_nat 3) key_abc)) sample_tail ∧
  run sample_tail (Some sample_abc) (World [] [])
  = Val (Some sample_abc_b, World [] [30]) ∧
  hashmap_get (Some sample_abc_b) (Some key_abc) 3 = Val 10.
Proof.
  split; [reflexivity|]. split; [lia|]. split; [reflexivity|].
  split; [repeat constructor; by cbn|]. split; [reflexivity|].
  apply (add_then_get sample_new key_abc 3 10 (World [] []) sample_abc
           (World [] []) sample_tail sample_abc_b (World [] [30]));
    [reflexivity|lia|reflexivity|repeat constructor; by cbn|reflexivity].
Defined.

Lemma add_twice_rejected_witness :
  sized sample_new ∧ 0 < 3 ≤ 255 ∧
  hashmap_add (Some sample_new) (Some key_abc) 3 10 (World [] [])
  = Val (true, Some sample_abc, World [] []) ∧
  (∃ w3, hashmap_add (Some sample_abc) (Some key_abc) 3 40 (World [] [])
         = Val (false, Some sample_abc, w3)) ∧
  hashmap_get (Some sample_abc) (Some key_abc) 3 = Val 10.
Proof.
  split; [reflexivity|]. split; [lia|]. split; [reflexivity|].
  apply (add_twice_rejected sample_new key_abc 3 10 40 (World [] [])
           sample_abc (World [] []) (World [] []));
    [reflexivity|lia|reflexivity].
Defined.


Lemma bucket_index_in_range_witness :
  hashmap_new 2 (Some byte_sum) None (Some record_call) (World [] [])
  = Val (Some sample_new, World [] []) ∧
  run sample_ops (Some sample_new) (World [] [])
  = Val (Some sample_map, World [] [40; 20]) ∧
  bucket_index sample_map key_ab 2 = Val 1 ∧
  0 ≤ 1 < map_bucketcount sample_map ∧
  is_Some (map_buckets sample_map !! Z.to_nat 1).
Proof.
  split; [reflexivity|]. split; [reflexivity|]. split; [reflexivity|].
  apply (bucket_index_in_range 2 (Some byte_sum) None (Some record_call)
           (World [] []) sample_new (World [] []) sample_ops sample_map
           (World [] [40; 20]) key_ab 2 1); reflexivity.
Defined.

Lemma run_keeps_configuration_witness :
  run sample_ops (Some sample_new) (World [] [])
  = Val (Some sample_map, World [] [40; 20]) ∧
  map_bucketcount sample_map = map_bucketcount sample_new ∧
  map_hashmask sample_map = map_hashmask sample_new ∧
  length (map_buckets sample_map) = length (map_buckets sample_new) ∧
  map_hash_function sample_map = map_hash_function sample_new ∧
  map_value_clone_function sample_map = map_value_clone_function sample_new ∧
  map_value_free_function sample_map = map_value_free_function sample_new.
Proof.
  split; [reflexivity|].
  apply (run_keeps_configuration sample_ops sample_new (World [] [])
           sample_map (World [] [40; 20])); reflexivity.
Defined.

Lemma hashmap_new_outcome_witness :
  6 < 2 ^ 30 ∧
  ∃ r w',
    hashmap_new 6 (Some byte_sum) None None (World [true; false] tt)
    = Val (r, w') ∧
    env w' = tt ∧
    (6 < 1 → r = None ∧ w' = World [true; false] tt) ∧
    (is_Some r ↔
       1 ≤ 6 ∧ is_Some (Some byte_sum) ∧
       (malloc (World [true; false] tt)).1 = true ∧
       (malloc (malloc (World [true; false] tt)).2).1 = true).
Proof.
  split; [lia|].
  apply (hashmap_new_outcome 6 (Some byte_sum) None None
           (World [true; false] tt)); lia.
Defined.

Lemma hashmap_add_without_memory_witness :
  ((malloc (World [false] ([] : list Z))).1 = false ∨
   (malloc (malloc (World [false] ([] : list Z))).2).1 = false) ∧
  ∃ w', hashmap_add (Some sample_new) (Some key_abc) 3 10 (World [false] [])
        = Val (false, Some sample_new, w') ∧
    env w' = [].
Proof.
  split; [left; reflexivity|].
  apply (hashmap_add_without_memory (Some sample_new) (Some key_abc) 3 10
           (World [false] [])). left. reflexivity.
Defined.

Lemma hashmap_new_is_empty_witness :
  hashmap_new 2 (Some byte_sum) None (Some record_call) (World [] [])
  = Val (Some sample_new, World [] []) ∧
  3 ≤ Z.of_nat (length key_abc) ∧
  entries sample_new = [] ∧
  hashmap_get (Some sample_new) (Some key_abc) 3 = Val 0 ∧
  ∀ w2, hashmap_remove (Some sample_new) (Some key_abc) 3 w2
        = Val (false, Some sample_new, w2).
Proof.
  split; [reflexivity|]. split; [cbn; lia|].
  apply (hashmap_new_is_empty 2 (Some byte_sum) None (Some record_call)
           (World [] []) sample_new (World [] []) key_abc 3);
    [reflexivity|cbn; lia].
Defined.

Lemma step_changes_one_entry_witness :
  step (OpAdd (Some key_abc) 3 10) (Some sample_new) (World [] [])
  = Val (true, Some sample_abc, World [] []) ∧
  ∃ i old nb, map_buckets sample_new !! i = Some old ∧
    map_buckets sample_abc = <[i := old ++ [nb]]> (map_buckets sample_new) ∧
    length (entries sample_abc) = S (length (entries sample_new)).
Proof.
  split; [reflexivity|].
  apply (step_changes_one_entry (OpAdd (Some key_abc) 3 10) sample_new
           (World [] []) true sample_abc (World [] [])). reflexivity.
Defined.

Lemma hashmap_get_finds_first_match_witness :
  hashmap_get (Some sample_map) (Some key_b) 1 = Val 50 ∧ 50 ≠ 0 ∧
  ∃ i pre it post,
    bucket_index sample_map key_b 1 = Val i ∧
    map_buckets sample_map !! Z.to_nat i = Some (pre ++ it :: post) ∧
    bkt_value it = 50 ∧
    take (Z.to_nat 1) (bkt_key it) = take (Z.to_nat 1) key_b ∧
    Forall (differs key_b (Z.to_nat 1)) pre.
Proof.
  split; [reflexivity|]. split; [lia|].
  apply (hashmap_get_finds_first_match sample_map key_b 1 50);
    [reflexivity|lia].
Defined.

Lemma hashmap_destroy_frees_entries_witness :
  hashmap_new 2 (Some byte_sum) None (Some record_call) (World [] [])
  = Val (Some sample_new, World [] []) ∧
  run sample_ops (Some sample_new) (World [] [])
  = Val (Some sample_map, World [] [40; 20]) ∧
  hashmap_destroy (Some sample_map) (World [] [40; 20])
  = Val (World [] [40; 20; 10; 50; 30]).
Proof.
  split; [reflexivity|]. split; [reflexivity|].
  apply (hashmap_destroy_frees_entries 2 (Some byte_sum) None
           (Some record_call) (World [] []) sample_new (World [] [])
           sample_ops sample_map (World [] [40; 20]) (World [] [40; 20]));
    reflexivity.
Defined.

Lemma fixed_keys_never_undefined_witness :
  0 < 2 ≤ 255 ∧
  hashmap_new 2 (Some byte_sum) None (Some record_call) (World [] [])
  = Val (Some sample_new, World [] []) ∧
  Forall (fixed_key_op 2) sample_fixed_ops ∧
  ∃ m w, run sample_fixed_ops (Some sample_new) (World [] [])
         = Val (Some m, w).
Proof.
  split; [lia|]. split; [reflexivity|].
  split; [repeat constructor; cbn; lia|].
  apply (fixed_keys_never_undefined 2 2 (Some byte_sum) None
           (Some record_call) (World [] []) sample_new (World [] [])
           sample_fixed_ops);
    [lia|reflexivity|repeat constructor; cbn; lia].
Defined.

Lemma fixed_keys_lookup_exact_witness :
  0 < 2 ≤ 255 ∧
  hashmap_new 2 (Some byte_sum) None (Some record_call) (World [] [])
  = Val (Some sample_new, World [] []) ∧
  Forall (fixed_key_op 2) sample_fixed_ops ∧
  run sample_fixed_ops (Some sample_new) (World [] [])
  = Val (Some sample_fixed, World [] [40; 30]) ∧
  2 ≤ Z.of_nat (length key_ab) ∧
  (∀ it, it ∈ entries sample_fixed →
     bkt_key it = take (Z.to_nat 2) key_ab →
     hashmap_get (Some sample_fixed) (Some key_ab) 2 = Val (bkt_value it)) ∧
  ((∀ it, it ∈ entries sample_fixed →
      bkt_key it ≠ take (Z.to_nat 2) key_ab) →
     hashmap_get (Some sample_fixed) (Some key_ab) 2 = Val 0).
Proof.
  split; [lia|]. split; [reflexivity|].
  split; [repeat constructor; cbn; lia|]. split; [reflexivity|].
  split; [cbn; lia|].
  apply (fixed_keys_lookup_exact 2 2 (Some byte_sum) None
           (Some record_call) (World [] []) sample_new (World [] [])
           sample_fixed_ops sample_fixed (World [] [40; 30]) key_ab);
    [lia|reflexivity|repeat constructor; cbn; lia|reflexivity|cbn; lia].
Defined.

Lemma fixed_keys_add_outcome_witness :
  0 < 2 ≤ 255 ∧
  hashmap_new 2 (Some byte_sum) None (Some record_call) (World [] [])
  = Val (Some sample_new, World [] []) ∧
  Forall (fixed_key_op 2) sample_fixed_ops ∧
  run sample_fixed_ops (Some sample_new) (World [] [])
  = Val (Some sample_fixed, World [] [40; 30]) ∧
  2 ≤ Z.of_nat (length key_xy) ∧
  ∃ b m' w',
    hashmap_add (Some sample_fixed) (Some key_xy) 2 30 (World [] [])
    = Val (b, Some m', w') ∧
    (b = true ↔
       (∀ it, it ∈ entries sample_fixed →
          bkt_key it ≠ take (Z.to_nat 2) key_xy) ∧
       (malloc (World [] ([] : list Z))).1 = true ∧
       (malloc (malloc (World [] ([] : list Z))).2).1 = true) ∧
    (b = true →
       entries m'
       ≡ₚ entries sample_fixed ++ [Bucket (take (Z.to_nat 2) key_xy) 2 30]) ∧
    (b = false → m' = sample_fixed).
Proof.
  split; [lia|]. split; [reflexivity|].
  split; [repeat constructor; cbn; lia|]. split; [reflexivity|].
  split; [cbn; lia|].
  apply (fixed_keys_add_outcome 2 2 (Some byte_sum) None
           (Some record_call) (World [] []) sample_new (World [] [])
           sample_fixed_ops sample_fixed (World [] [40; 30]) key_xy 30
           (World [] []));
    [lia|reflexivity|repeat constructor; cbn; lia|reflexivity|cbn; lia].
Defined.

Lemma fixed_keys_remove_outcome_witness :
  0 < 2 ≤ 255 ∧
  hashmap_new 2 (Some byte_sum) None (Some record_call) (World [] [])
  = Val (Some sample_new, World [] []) ∧
  Forall (fixed_key_op 2) sample_fixed_ops ∧
  run sample_fixed_ops (Some sample_new) (World [] [])
  = Val (Some sample_fixed, World [] [40; 30]) ∧
  2 ≤ Z.of_nat (length key_ab) ∧
  ∃ b m' w',
    hashmap_remove (Some sample_fixed) (Some key_ab) 2 (World [] [])
    = Val (b, Some m', w') ∧
    (b = true ↔
       ∃ it, it ∈ entries sample_fixed ∧
         bkt_key it = take (Z.to_nat 2) key_ab) ∧
    (b = true →
       (∃ it, it ∈ entries sample_fixed ∧
          bkt_key it = take (Z.to_nat 2) key_ab ∧
          entries sample_fixed ≡ₚ it :: entries m' ∧
          w' = World [] (_hashbucket_free it (Some record_call) [])) ∧
       ∀ it', it' ∈ entries m' → bkt_key it' ≠ take (Z.to_nat 2) key_ab) ∧
    (b = false → m' = sample_fixed ∧ w' = World [] []).
Proof.
  split; [lia|]. split; [reflexivity|].
  split; [repeat constructor; cbn; lia|]. split; [reflexivity|].
  split; [cbn; lia|].
  apply (fixed_keys_remove_outcome 2 2 (Some byte_sum) None
           (Some record_call) (World [] []) sample_new (World [] [])
           sample_fixed_ops sample_fixed (World [] [40; 30]) key_ab
           (World [] []));
    [lia|reflexivity|repeat constructor; cbn; lia|reflexivity|cbn; lia].
Defined.

Lemma fixed_keys_other_lookups_unchanged_witness :
  0 < 2 ≤ 255 ∧
  hashmap_new 2 (Some byte_sum) None (Some record_call) (World [] [])
  = Val (Some sample_new, World [] []) ∧
  Forall (fixed_key_op 2) sample_fixed_ops ∧
  run sample_fixed_ops (Some sample_new) (World [] [])
  = Val (Some sample_fixed, World [] [40; 30]) ∧
  2 ≤ Z.of_nat (length key_xy) ∧ 2 ≤ Z.of_nat (length key_ab) ∧
  take (Z.to_nat 2) key_xy ≠ take (Z.to_nat 2) key_ab ∧
  ((∃ v, OpAdd (Some key_xy) 2 30 = OpAdd (Some key_xy) 2 v) ∨
   OpAdd (Some key_xy) 2 30 = OpRemove (Some key_xy) 2) ∧
  step (OpAdd (Some key_xy) 2 30) (Some sample_fixed) (World [] [])
  = Val (true,
         Some (Hashmap 2 [[]; [Bucket key_ab 2 20; Bucket key_xy 2 30]] 1
                 byte_sum (Some record_call) None),
         World [] []) ∧
  hashmap_get
    (Some (Hashmap (E:=list Z) 2
             [[]; [Bucket key_ab 2 20; Bucket key_xy 2 30]] 1
             byte_sum (Some record_call) None))
    (Some key_ab) 2
  = hashmap_get (Some sample_fixed) (Some key_ab) 2.
Proof.
  split; [lia|]. split; [reflexivity|].
  split; [repeat constructor; cbn; lia|]. split; [reflexivity|].
  split; [cbn; lia|]. split; [cbn; lia|]. split; [discriminate|].
  split; [left; exists 30; reflexivity|]. split; [reflexivity|].
  apply (fixed_keys_other_lookups_unchanged 2 2 (Some byte_sum) None
           (Some record_call) (World [] []) sample_new (World [] [])
           sample_fixed_ops sample_fixed (World [] [40; 30])
           (OpAdd (Some key_xy) 2 30) key_xy key_ab (World [] []) true
           (Hashmap 2 [[]; [Bucket key_ab 2 20; Bucket key_xy 2 30]] 1
              byte_sum (Some record_call) None)
           (World [] []));
    [lia|reflexivity|repeat constructor; cbn; lia|reflexivity|cbn; lia
    |cbn; lia|discriminate|left; exists 30; reflexivity|reflexivity].
Defined.

Lemma values_freed_exactly_once_witness :
  heap (World [] ([] : list Z)) = [] ∧ env (World [] ([] : list Z)) = [] ∧
  hashmap_new 2 (Some byte_sum) None (Some record_call) (World [] [])
  = Val (Some sample_new, World [] []) ∧
  Forall checked_op sample_fixed_ops ∧
  run sample_fixed_ops (Some sample_new) (World [] [])
  = Val (Some sample_fixed, World [] [40; 30]) ∧
  hashmap_destroy (Some sample_fixed) (World [] [40; 30])
  = Val (World [] [40; 30; 20]) ∧
  [40; 30; 20] ≡ₚ non_null (added_values sample_fixed_ops).
Proof.
  split; [reflexivity|]. split; [reflexivity|]. split; [reflexivity|].
  split; [repeat constructor; by cbn|]. split; [reflexivity|].
  split; [reflexivity|].
  apply (values_freed_exactly_once 2 (Some byte_sum) (World [] [])
           sample_new (World [] []) sample_fixed_ops sample_fixed
           (World [] [40; 30]) (World [] [40; 30; 20]));
    [reflexivity|reflexivity|reflexivity|repeat constructor; by cbn
    |reflexivity|reflexivity].
Defined.

Lemma hashmap_remove_unlinks_first_match_witness :
  hashmap_remove (Some sample_abc_b) (Some key_b) 1 (World [] [])
  = Val (true, Some sample_abc, World [] [50]) ∧
  ∃ i pre it post,
    bucket_index sample_abc_b key_b 1 = Val i ∧
    map_buckets sample_abc_b !! Z.to_nat i = Some (pre ++ it :: post) ∧
    take (Z.to_nat 1) (bkt_key it) = take (Z.to_nat 1) key_b ∧
    Forall (differs key_b (Z.to_nat 1)) pre ∧
    map_buckets sample_abc
    = <[Z.to_nat i := pre ++ post]> (map_buckets sample_abc_b) ∧
    World [] [50]
    = World [] (if bool_decide (bkt_value it = 0) then []
                else record_call (bkt_value it) []).
Proof.
  split; [reflexivity|].
  apply (hashmap_remove_unlinks_first_match sample_abc_b key_b 1
           (World [] []) sample_abc (World [] [50])). reflexivity.
Defined.
